(** * cloud-release-slack-notify: changelog parser and Slack block renderer

    A shallow embedding of [src/main.js]: [parseMarkdown], [versionToBlocks],
    [addHeader] and the pure part of [run], together with the fragment of the
    JavaScript string and regular-expression library they call.

    Strings are lists of code units, here the 8-bit ones ([list ascii]); a
    value that may be [undefined] is an [option]; a thrown [TypeError] is the
    [Err] branch of [result]. *)

From Stdlib Require Import Ascii String.
From Stdlib Require Import List Arith Lia Bool.
Import ListNotations.

(* ================================================================= *)
(** ** Strings *)

Definition str := list ascii.

(** String literals of the source are written [lit "..."]. *)
Definition lit (s : string) : str := list_ascii_of_string s.

(** The line feed, ["\n"]. *)
Definition LF : ascii := "010"%char.
(** The carriage return, ["\r"]. *)
Definition CR : ascii := "013"%char.

(** [String.prototype.startsWith]. *)
Fixpoint startsWith (s p : str) {struct p} : bool :=
  match p with
  | [] => true
  | a :: p' =>
      match s with
      | [] => false
      | c :: s' => Ascii.eqb a c && startsWith s' p'
      end
  end.

(** [String.prototype.split] with a string separator.  [skip] counts the
    code units of a separator occurrence still to be passed over, [cur] is the
    piece being collected, in reverse. *)
Fixpoint split_from (sep s : str) (skip : nat) (cur : str) : list str :=
  match s with
  | [] => [rev cur]
  | c :: s' =>
      match skip with
      | S k => split_from sep s' k cur
      | O =>
          if startsWith s sep
          then rev cur :: split_from sep s' (length sep - 1) []
          else split_from sep s' 0 (c :: cur)
      end
  end.

Definition split (s sep : str) : list str :=
  match sep with
  | [] => map (fun c => [c]) s
  | _ :: _ => split_from sep s 0 []
  end.

(** [String.prototype.replaceAll] with a non-empty string pattern and a
    replacement without [$]: every occurrence, left to right, not
    overlapping. *)
Fixpoint replaceAll_from (pat rep s : str) (skip : nat) : str :=
  match s with
  | [] => []
  | c :: s' =>
      match skip with
      | S k => replaceAll_from pat rep s' k
      | O =>
          if startsWith s pat
          then rep ++ replaceAll_from pat rep s' (length pat - 1)
          else c :: replaceAll_from pat rep s' 0
      end
  end.

Definition replaceAll (s pat rep : str) : str := replaceAll_from pat rep s 0.

(** [String.prototype.replace] with a string pattern: the first occurrence
    only. *)
Fixpoint replace (s pat rep : str) : str :=
  if startsWith s pat then rep ++ skipn (length pat) s
  else match s with
       | [] => []
       | c :: s' => c :: replace s' pat rep
       end.

(* ================================================================= *)
(** ** Regular expressions

    The patterns of the source are sequences of single characters, character
    classes under a quantifier, and capture-group parentheses.  They are run
    by a backtracking matcher, as the JavaScript engine runs them. *)

Module Regex.

(** A character class: a literal, [.], or [\d]. *)
Inductive cls : Type :=
| Lit (c : ascii)
| Any
| Dig.

Definition is_digit (c : ascii) : bool :=
  (48 <=? nat_of_ascii c) && (nat_of_ascii c <=? 57).

(** [.] matches every code unit but the line terminators; of those only
    ["\n"] and ["\r"] are 8-bit. *)
Definition is_line_terminator (c : ascii) : bool :=
  Ascii.eqb c LF || Ascii.eqb c CR.

Definition cls_match (k : cls) (c : ascii) : bool :=
  match k with
  | Lit a => Ascii.eqb a c
  | Any => negb (is_line_terminator c)
  | Dig => is_digit c
  end.

Inductive atom : Type :=
| One (k : cls)                (* k      *)
| Lazy (k : cls)               (* k*?    *)
| Many1 (k : cls)              (* k+     *)
| Times (n : nat) (k : cls)    (* k{n}   *)
| GOpen                        (* (      *)
| GClose.                      (* )      *)

(** A match of a pattern is the list of the pieces its atoms consumed, one
    per atom, and the rest of the subject. *)
Definition found : Type := (list str * str)%type.

Definition skip_seg (m : option found) : option found :=
  match m with
  | Some (segs, rest) => Some ([] :: segs, rest)
  | None => None
  end.

Definition cons_seg (c : ascii) (m : option found) : option found :=
  match m with
  | Some (seg :: segs, rest) => Some ((c :: seg) :: segs, rest)
  | _ => None
  end.

(** [k{n}] followed by the continuation [k0]. *)
Fixpoint times (k : cls) (n : nat) (k0 : str -> option found) (s : str)
  : option found :=
  match n with
  | O => skip_seg (k0 s)
  | S n' =>
      match s with
      | c :: s' => if cls_match k c then cons_seg c (times k n' k0 s') else None
      | [] => None
      end
  end.

(** [k*?] followed by [k0]: the continuation is tried first, one more [k] is
    consumed only when it fails. *)
Fixpoint lazy (k : cls) (k0 : str -> option found) (s : str) : option found :=
  match k0 s with
  | Some m => skip_seg (Some m)
  | None =>
      match s with
      | c :: s' => if cls_match k c then cons_seg c (lazy k k0 s') else None
      | [] => None
      end
  end.

(** [k*] followed by [k0], greedy: one more [k] is consumed first, the
    continuation is tried at this point only when that fails. *)
Fixpoint greedy (k : cls) (k0 : str -> option found) (s : str) : option found :=
  match s with
  | c :: s' =>
      if cls_match k c then
        match cons_seg c (greedy k k0 s') with
        | Some m => Some m
        | None => skip_seg (k0 s)
        end
      else skip_seg (k0 s)
  | [] => skip_seg (k0 s)
  end.

(** The matcher at a fixed start position. *)
Fixpoint exec (r : list atom) : str -> option found :=
  match r with
  | [] => fun s => Some ([], s)
  | One k :: r' => times k 1 (exec r')
  | Lazy k :: r' => lazy k (exec r')
  | Many1 k :: r' =>
      fun s =>
        match s with
        | c :: s' =>
            if cls_match k c then cons_seg c (greedy k (exec r') s') else None
        | [] => None
        end
  | Times n k :: r' => times k n (exec r')
  | GOpen :: r' => fun s => skip_seg (exec r' s)
  | GClose :: r' => fun s => skip_seg (exec r' s)
  end.

(** The text of the capture groups, from the pieces of a match. *)
Fixpoint groups (r : list atom) (segs : list str) (open : option str)
  : list str :=
  match r, segs with
  | GOpen :: r', _ :: segs' => groups r' segs' (Some [])
  | GClose :: r', _ :: segs' =>
      match open with
      | Some g => g :: groups r' segs' None
      | None => groups r' segs' None
      end
  | _ :: r', seg :: segs' =>
      groups r' segs' (option_map (fun g => g ++ seg) open)
  | _, _ => []
  end.

(** A pattern: [anchored] is the leading [^]. *)
Record regex : Type := { anchored : bool; body : list atom }.

(** The leftmost start position at which the pattern matches. *)
Fixpoint search (r : list atom) (s : str) : option found :=
  match exec r s with
  | Some m => Some m
  | None =>
      match s with
      | [] => None
      | _ :: s' => search r s'
      end
  end.

Definition find (re : regex) (s : str) : option found :=
  if anchored re then exec (body re) s else search (body re) s.

(** [String.prototype.match] with a pattern without the [g] flag: [null], or
    the array of the whole match and the capture groups. *)
Definition match_ (s : str) (re : regex) : option (list str) :=
  match find re s with
  | Some (segs, _) => Some (concat segs :: groups (body re) segs None)
  | None => None
  end.

(** All matches of a pattern with the [g] flag, left to right: after a match
    the search resumes at its end ([skip] code units further on), and one
    code unit further on after an empty match. *)
Fixpoint all_from (r : list atom) (s : str) (skip : nat) : list str :=
  match skip with
  | S k =>
      match s with
      | [] => []
      | _ :: s' => all_from r s' k
      end
  | O =>
      match exec r s with
      | Some (segs, _) =>
          concat segs ::
          match s with
          | [] => []
          | _ :: s' => all_from r s' (length (concat segs) - 1)
          end
      | None =>
          match s with
          | [] => []
          | _ :: s' => all_from r s' 0
          end
      end
  end.

(** [String.prototype.match] with a [g] pattern: [null] when nothing
    matches, the array of the matched texts otherwise. *)
Definition match_g (s : str) (r : list atom) : option (list str) :=
  match all_from r s 0 with
  | [] => None
  | l => Some l
  end.

(** *** The meaning of a pattern *)

(** The texts an atom can consume. *)
Definition atom_ok (it : atom) (seg : str) : Prop :=
  match it with
  | One k => exists c, seg = [c] /\ cls_match k c = true
  | Lazy k => Forall (fun c => cls_match k c = true) seg
  | Many1 k => seg <> [] /\ Forall (fun c => cls_match k c = true) seg
  | Times n k => length seg = n /\ Forall (fun c => cls_match k c = true) seg
  | GOpen | GClose => seg = []
  end.

(** [segs] is a match of the pattern [r]. *)
Definition matches (r : list atom) (segs : list str) : Prop :=
  Forall2 atom_ok r segs.

(** What a quantified class hands to its continuation [k0]: it consumes
    [seg] and the continuation matches what follows. *)
Definition hands_over (k0 : str -> option found) (seg : str) (s : str)
  (m : found) : Prop :=
  exists segs' s', fst m = seg :: segs' /\ s = seg ++ s' /\
                   k0 s' = Some (segs', snd m).

(** Patterns are written with a string for a run of literal characters. *)
Definition chars (s : string) : list atom := map (fun c => One (Lit c)) (lit s).

End Regex.
Import Regex.

(* ================================================================= *)
(** ** Errors

    Every error the code can throw is a [TypeError] raised by reading a
    property of [null] or of [undefined]; [prop] is the property read. *)

Inductive exn : Type :=
| TypeError_null (prop : string)       (* ... properties of null *)
| TypeError_undefined (prop : string). (* ... properties of undefined *)

Inductive result (A : Type) : Type :=
| Ok (a : A)
| Err (e : exn).

Arguments Ok {A} a.
Arguments Err {A} e.

Definition bind {A B : Type} (m : result A) (f : A -> result B) : result B :=
  match m with
  | Ok a => f a
  | Err e => Err e
  end.

Notation "x <- m ;; k" := (bind m (fun x => k))
  (at level 61, m at next level, right associativity).

(** [arr[i]] where [arr] is the result of [String.prototype.match]: a
    [TypeError] when it is [null].  The patterns of the source have the group
    that is read, so the index is within the array. *)
Definition index (arr : option (list str)) (i : nat) (prop : string)
  : result str :=
  match arr with
  | None => Err (TypeError_null prop)
  | Some a => Ok (nth i a [])
  end.

(** Truthiness of a [match] result and of an optional string. *)
Definition matched (arr : option (list str)) : bool :=
  match arr with Some _ => true | None => false end.

Definition truthy (s : option str) : bool :=
  match s with
  | Some (_ :: _) => true
  | _ => false
  end.

(** [links ?? []]. *)
Definition nullish {A : Type} (o : option (list A)) (d : list A) : list A :=
  match o with Some l => l | None => d end.

(* ================================================================= *)
(** ** The patterns of [parseMarkdown] *)

(** [/# \[(.*?)\]/] *)
Definition re_version_bracket : regex :=
  {| anchored := false;
     body := chars "# [" ++ [GOpen; Lazy Any; GClose] ++ chars "]" |}.

(** [/\d{4}-\d{2}-\d{2}/] *)
Definition re_date : regex :=
  {| anchored := false;
     body := [Times 4 Dig] ++ chars "-" ++ [Times 2 Dig] ++ chars "-"
             ++ [Times 2 Dig] |}.

(** [/\((.*?)\)/] *)
Definition re_paren : regex :=
  {| anchored := false;
     body := chars "(" ++ [GOpen; Lazy Any; GClose] ++ chars ")" |}.

(** [/^# \d+.\d+.\d+/] *)
Definition re_bare_header : regex :=
  {| anchored := true;
     body := chars "# " ++
             [Many1 Dig; One Any; Many1 Dig; One Any; Many1 Dig] |}.

(** [/# (.*?) /] *)
Definition re_version_token : regex :=
  {| anchored := false;
     body := chars "# " ++ [GOpen; Lazy Any; GClose] ++ chars " " |}.

(** [/\[(.*?)\]\((.*?)\)/g] *)
Definition re_link : list atom :=
  chars "[" ++ [GOpen; Lazy Any; GClose] ++ chars "](" ++
  [GOpen; Lazy Any; GClose] ++ chars ")".

(** [/\[(.*?)\]/] *)
Definition re_bracket : regex :=
  {| anchored := false;
     body := chars "[" ++ [GOpen; Lazy Any; GClose] ++ chars "]" |}.

(* ================================================================= *)
(** ** The data of [parseMarkdown] *)

(** The pieces of an item: [{type: 'Text', text}] and
    [{type: 'Link', raw, url, text}].  The text of the last [Text] piece is
    [itemCpy], which can be [undefined]. *)
Inductive Run : Type :=
| Text (text : option str)
| Link (raw url text : str).

(** The entries of [elements]. *)
Inductive Element : Type :=
| Header (raw version date : str) (url : option str)
| Section (raw title : str)
| Item (raw : str) (sections : list Run).

(** [{item: element.item, sections: element.sections}]; an [Item] element
    has no [item] property, so [item] is [undefined].  [runs] is the
    [sections] property, the pieces of the item. *)
Record ItemRecord : Type := { item : option str; runs : list Run }.

Record SectionRecord : Type := { title : str; items : list ItemRecord }.

Record HeaderRecord : Type :=
  { version : str; date : str; url : option str }.

Record Version : Type :=
  { header : HeaderRecord; sections : list SectionRecord }.

(* ================================================================= *)
(** ** [parseMarkdown], first loop: lines to elements *)

(** The loop [for (const link of links ?? [])] with its variables [itemCpy]
    and [sections]. *)
Fixpoint link_loop (links : list str) (itemCpy : option str)
  (sections : list Run) : result (option str * list Run) :=
  match links with
  | [] => Ok (itemCpy, sections)
  | link :: links' =>
      url <- index (match_ link re_paren) 1 "1" ;;
      text <- index (match_ link re_bracket) 1 "1" ;;
      match itemCpy with
      | None => Err (TypeError_undefined "split")
      | Some cpy =>
          let parts := split cpy link in
          let before := nth_error parts 0 in
          let after := nth_error parts 1 in
          link_loop links' after
            (sections ++ [Text before; Link link url text])
      end
  end.

(** The normalisation of an item line. *)
Definition normalize (line : str) : str :=
  replaceAll
    (replaceAll
       (replaceAll
          (replaceAll (replaceAll line (lit "**") (lit "")) (lit "* ") (lit ""))
          (lit "&") (lit "&amp;"))
       (lit "<") (lit "&lt;"))
    (lit ">") (lit "&gt;").

(** The pieces of an item line. *)
Definition item_sections (line : str) : result (list Run) :=
  let item := normalize line in
  let itemCpy := Some item in
  let links := match_g item re_link in
  r <- link_loop (nullish links []) itemCpy [] ;;
  let '(itemCpy, sections) := r in
  Ok (sections ++ [Text itemCpy]).

(** The conditions of the four [if] statements of the first loop. *)
Definition is_bracket_header (line : str) : bool :=
  startsWith line (lit "# [") || startsWith line (lit "## [").

Definition is_bare_header (line : str) : bool :=
  matched (match_ line re_bare_header).

Definition is_section_line (line : str) : bool := startsWith line (lit "### ").

Definition is_item_line (line : str) : bool := startsWith line (lit "* ").

(** The element of a line that begins with [# [] or [## []. *)
Definition bracket_header (line : str) : result Element :=
  version <- index (match_ line re_version_bracket) 1 "1" ;;
  date <- index (match_ line re_date) 0 "0" ;;
  url <- index (match_ line re_paren) 1 "1" ;;
  Ok (Header line version date (Some url)).

(** The element of a line that matches [/^# \d+.\d+.\d+/]. *)
Definition bare_header (line : str) : result Element :=
  version <- index (match_ line re_version_token) 1 "1" ;;
  date <- index (match_ line re_date) 0 "0" ;;
  Ok (Header line version date None).

(** The body of the first loop: the four [if] statements, one after the
    other, on one line. *)
Definition scan_line (elements : list Element) (line : str)
  : result (list Element) :=
  elements <-
    (if is_bracket_header line then
       element <- bracket_header line ;;
       Ok (elements ++ [element])
     else Ok elements) ;;
  elements <-
    (if is_bare_header line then
       element <- bare_header line ;;
       Ok (elements ++ [element])
     else Ok elements) ;;
  elements <-
    (if is_section_line line then
       let title := replace line (lit "### ") (lit "") in
       Ok (elements ++ [Section line title])
     else Ok elements) ;;
  if is_item_line line then
    sections <- item_sections line ;;
    Ok (elements ++ [Item line sections])
  else Ok elements.

(** A line is a header line when either header pattern recognises it. *)
Definition is_header_line (line : str) : bool :=
  is_bracket_header line || is_bare_header line.

(** The element of a header line. *)
Definition header_of (line : str) : result Element :=
  if is_bracket_header line then bracket_header line else bare_header line.

(** The elements one line adds: at most one. *)
Definition line_elements (line : str) : result (list Element) :=
  if is_header_line line then
    element <- header_of line ;; Ok [element]
  else if is_section_line line then
    Ok [Section line (replace line (lit "### ") (lit ""))]
  else if is_item_line line then
    sections <- item_sections line ;; Ok [Item line sections]
  else Ok [].

Fixpoint scan (elements : list Element) (lines : list str)
  : result (list Element) :=
  match lines with
  | [] => Ok elements
  | line :: lines' =>
      elements <- scan_line elements line ;;
      scan elements lines'
  end.

(* ================================================================= *)
(** ** [parseMarkdown], second loop: elements to versions

    [currentVersion] and the entries of [versions] are references to objects
    that the loop mutates, so the objects live in a store: [heap] holds every
    version object allocated so far, [versions] and [currentVersion] hold
    indices into it, always within its bounds.  Index 0 is the object
    [currentVersion] starts with, which is never pushed to [versions]. *)

Record store : Type :=
  { heap : list Version; versions : list nat; currentVersion : nat }.

Definition placeholder : Version :=
  {| header := {| version := lit ""; date := lit ""; url := Some (lit "") |};
     sections := [] |}.

Definition init : store :=
  {| heap := [placeholder]; versions := []; currentVersion := 0 |}.

(** [l[i] = f(l[i])], nothing when [i] is out of range. *)
Fixpoint update {A : Type} (l : list A) (i : nat) (f : A -> A) : list A :=
  match l, i with
  | [], _ => []
  | x :: l', O => f x :: l'
  | x :: l', S i' => x :: update l' i' f
  end.

(** [currentVersion.sections.push(section)] *)
Definition push_section (s : SectionRecord) (v : Version) : Version :=
  {| header := header v; sections := sections v ++ [s] |}.

(** [section.items.push(it)] *)
Definition push_item (it : ItemRecord) (s : SectionRecord) : SectionRecord :=
  {| title := title s; items := items s ++ [it] |}.

(** [section.items.push(it)] where [section] is the last section of [v]. *)
Definition push_item_last (it : ItemRecord) (v : Version) : Version :=
  {| header := header v;
     sections :=
       update (sections v) (length (sections v) - 1) (push_item it) |}.

(** The body of the second loop. *)
Definition step (st : store) (element : Element) : result store :=
  match element with
  | Header _ version date url =>
      let fresh := length (heap st) in
      let v := {| header := {| version := version; date := date; url := url |};
                  sections := [] |} in
      Ok {| heap := heap st ++ [v];
            versions := versions st ++ [fresh];
            currentVersion := fresh |}
  | Section _ title =>
      let section := {| title := title; items := [] |} in
      Ok {| heap := update (heap st) (currentVersion st) (push_section section);
            versions := versions st;
            currentVersion := currentVersion st |}
  | Item _ pieces =>
      let v := nth (currentVersion st) (heap st) placeholder in
      match nth_error (sections v) (length (sections v) - 1) with
      | None => Err (TypeError_undefined "items")
      | Some _ =>
          Ok {| heap := update (heap st) (currentVersion st)
                          (push_item_last {| item := None; runs := pieces |});
                versions := versions st;
                currentVersion := currentVersion st |}
      end
  end.

Fixpoint build (st : store) (elements : list Element) : result store :=
  match elements with
  | [] => Ok st
  | element :: elements' =>
      st <- step st element ;;
      build st elements'
  end.

(** The array that is returned: the objects [versions] refers to, as they
    are when the loop ends. *)
Definition deref (st : store) : list Version :=
  map (fun r => nth r (heap st) placeholder) (versions st).

Definition parse_lines (lines : list str) : result (list Version) :=
  elements <- scan [] lines ;;
  st <- build init elements ;;
  Ok (deref st).

Definition parseMarkdown (markdown : str) : result (list Version) :=
  let lines := split markdown [LF] in
  parse_lines lines.

(* ================================================================= *)
(** ** Vocabulary of the statements about [parseMarkdown] *)

(** The lines of a document. *)
Definition lines_of (markdown : str) : list str := split markdown [LF].

(** The header lines of a document, in document order. *)
Definition header_lines (markdown : str) : list str :=
  filter is_header_line (lines_of markdown).

(** The header record a [Header] element is turned into by the second
    loop. *)
Definition headers (elements : list Element) : list HeaderRecord :=
  flat_map (fun element =>
              match element with
              | Header _ version date url =>
                  [{| version := version; date := date; url := url |}]
              | _ => []
              end) elements.

(** The header element with the fields of a header record. *)
Definition as_element (line : str) (h : HeaderRecord) : Element :=
  Header line (version h) (date h) (url h).

(** The references held by [versions] point into the heap. *)
Definition in_heap (st : store) : Prop :=
  Forall (fun r => r < length (heap st)) (versions st).

(** No item line of [lines] comes before the first section line. *)
Fixpoint guarded (lines : list str) : bool :=
  match lines with
  | [] => true
  | line :: lines' =>
      if is_section_line line then true
      else if is_item_line line then false
      else guarded lines'
  end.

(** A [YYYY-MM-DD] text. *)
Definition date_shape (d : str) : bool :=
  match d with
  | [y1; y2; y3; y4; h1; m1; m2; h2; d1; d2] =>
      is_digit y1 && is_digit y2 && is_digit y3 && is_digit y4 &&
      Ascii.eqb h1 "-" && is_digit m1 && is_digit m2 &&
      Ascii.eqb h2 "-" && is_digit d1 && is_digit d2
  | _ => false
  end.

(** [line] has a [YYYY-MM-DD] substring. *)
Definition has_date (line : str) : Prop :=
  exists a d b, line = a ++ d ++ b /\ date_shape d = true.

(** [d] is the first [YYYY-MM-DD] substring of [line]. *)
Definition first_date (line d : str) : Prop :=
  exists a b, line = a ++ d ++ b /\ date_shape d = true /\
    forall a' d' b', line = a' ++ d' ++ b' -> date_shape d' = true ->
                     length a <= length a'.

(** [line] has a parenthesised segment [(...)]. *)
Definition has_paren (line : str) : Prop :=
  exists a b c, line = a ++ lit "(" ++ b ++ lit ")" ++ c.

(** A non-empty run of digits. *)
Definition digits (d : str) : Prop :=
  d <> [] /\ Forall (fun c => is_digit c = true) d.

(** The changelog of the worked example. *)
Definition changelog_example : str :=
  lit "# [1.2.0](http://x/1.2.0) (2024-01-05)" ++ [LF] ++
  lit "### Features" ++ [LF] ++
  lit "* Add **foo** support ([#12](http://x/12))".

(** A changelog with the same version three times. *)
Definition changelog_repeated : str :=
  lit "# [1.0.0](http://x/a) (2024-01-01)" ++ [LF] ++
  lit "# 1.0.0 (2024-01-02)" ++ [LF] ++
  lit "### Fixes" ++ [LF] ++
  lit "# [1.0.0](http://x/a) (2024-01-01)".

(** The parse of a document returns one record per header line, in the
    order of the header lines. *)
Definition returns_header_records (markdown : str) : Prop :=
  exists vs, parseMarkdown markdown = Ok vs /\
    Forall2 (fun line v => header_of line = Ok (as_element line (header v)))
      (header_lines markdown) vs.

(** A changelog whose first section comes before any header line. *)
Definition changelog_orphan_section : str :=
  lit "### Features" ++ [LF] ++
  lit "* early" ++ [LF] ++
  lit "# 1.0.0 (2024-01-05)".

(** A changelog without a header line. *)
Definition changelog_no_header : str :=
  lit "Changelog" ++ [LF] ++
  lit "### Notes" ++ [LF] ++
  lit "* nothing yet".

(** A changelog with an item line between a header line and its first
    section line. *)
Definition changelog_orphan_item : str :=
  lit "# 1.0.0 (2024-01-05)" ++ [LF] ++
  lit "" ++ [LF] ++
  lit "* early" ++ [LF] ++
  lit "### Features".

(** The same item line without a section, in a changelog that goes on with
    a bracketed header line without a date. *)
Definition changelog_orphan_item_broken_header : str :=
  lit "# 1.0.0 (2024-01-05)" ++ [LF] ++
  lit "* early" ++ [LF] ++
  lit "# [1.0]".

(** The code has no error of its own for a malformed document.  The error
    that an item line without a section leads to is the [TypeError] of
    reading [items] of the undefined last section; the statement is that the
    parse of a document with an item line after a header line, with no
    section line (and no other header line) between them, raises that
    error. *)
Definition raises_for_orphan_item (markdown : str) : Prop :=
  (exists pre h mid it post,
      lines_of markdown = pre ++ h :: mid ++ it :: post /\
      is_header_line h = true /\
      Forall (fun l => is_header_line l = false /\ is_section_line l = false)
        mid /\
      is_item_line it = true) ->
  parseMarkdown markdown = Err (TypeError_undefined "items").

(** The parse of a document with a section line that no header line
    precedes raises an error. *)
Definition raises_on_orphan_section (markdown : str) : Prop :=
  (exists pre line post,
      lines_of markdown = pre ++ line :: post /\
      is_section_line line = true /\
      Forall (fun l => is_header_line l = false) pre) ->
  exists e, parseMarkdown markdown = Err e.

(** A header line that the first loop cannot take apart: a bracketed
    header without a date or without a parenthesised segment, or a bare
    numeric header with no space after its [# ]. *)
Definition broken_header (line : str) : Prop :=
  (is_bracket_header line = true /\ (~ has_date line \/ ~ has_paren line)) \/
  (is_bare_header line = true /\ ~ In " "%char (skipn 2 line)).

(** [line] is [# ], digits, a character, digits, a character, digits, and
    whatever follows. *)
Definition bare_shape (line : str) (c1 c2 : ascii) : Prop :=
  exists d1 d2 d3 tail,
    line = lit "# " ++ d1 ++ c1 :: d2 ++ c2 :: d3 ++ tail /\
    digits d1 /\ digits d2 /\ digits d3.

(** [v] is the token between the [# ] that begins [line] and the next
    space. *)
Definition version_token (line v : str) : Prop :=
  (exists rest, line = lit "# " ++ v ++ lit " " ++ rest) /\
  Forall (fun c => c <> " "%char /\ is_line_terminator c = false) v.

(** The parse of the document that is the one line [line] returns one
    record, without url and without sections. *)
Definition bare_header_recorded (line : str) : Prop :=
  exists v d,
    parse_lines [line] =
    Ok [ {| header := {| version := v; date := d; url := None |};
            sections := [] |} ].

(** A bare numeric header line without a space and without a date, and one
    whose first separator is a carriage return. *)
Definition bare_line_no_space : str := lit "# 1.2.3".

Definition bare_line_cr : str := lit "# 1" ++ [CR] ++ lit "2.3 (2024-01-05)".

(** The part of the normalised line a run stands for: its text, or the
    markup of the link. *)
Definition run_source (r : Run) : option str :=
  match r with
  | Text text => text
  | Link raw _ _ => Some raw
  end.

(** The runs account for every character of [s], in order. *)
Definition runs_cover (rs : list Run) (s : str) : Prop :=
  exists parts, map run_source rs = map Some parts /\ concat parts = s.

(** [l] occurs at one place only in [s]. *)
Definition occurs_once (l s : str) : Prop :=
  forall a b a' b', s = a ++ l ++ b -> s = a' ++ l ++ b' -> a = a'.

(** An item line with the same link twice. *)
Definition item_repeated_link : str :=
  lit "* fix ([#12](http://x/12)) and ([#12](http://x/12)) too".

(** The elements that are not headers. *)
Definition no_Header (element : Element) : Prop :=
  match element with
  | Header _ _ _ _ => False
  | _ => True
  end.

(** The first loop goes through on the item lines of [lines]. *)
Definition items_split (lines : list str) : Prop :=
  Forall (fun l => is_item_line l = true -> exists rs, item_sections l = Ok rs)
    lines.

(** Every header line of [lines] has the parts its pattern reads. *)
Definition headers_split (lines : list str) : Prop :=
  Forall (fun l => is_header_line l = true -> exists e, header_of l = Ok e)
    lines.

(** Every item line of [lines] has a section line before it, after the last
    header line before it; [sec] tells whether there is one already. *)
Fixpoint placed (sec : bool) (lines : list str) : bool :=
  match lines with
  | [] => true
  | line :: lines' =>
      if is_header_line line then placed false lines'
      else if is_section_line line then placed true lines'
      else if is_item_line line then sec && placed sec lines'
      else placed sec lines'
  end.

(** The current version of a store is in the heap, and has a section when
    [sec] says so. *)
Definition current_ok (sec : bool) (st : store) : Prop :=
  currentVersion st < length (heap st) /\
  (sec = true ->
   sections (nth (currentVersion st) (heap st) placeholder) <> []).

(** The elements that are items. *)
Definition is_Item (element : Element) : Prop :=
  exists raw pieces, element = Item raw pieces.

(* ================================================================= *)
(** ** Slack blocks *)

(** The elements of a [rich_text_section]: [{type: 'text', text, style}],
    where [bold] is the [style: {bold: true}] of the title, and
    [{type: 'link', url, text}]. *)
Inductive Inline : Type :=
| text_ (text : option str) (bold : bool)
| link_ (url text : str).

(** [{type: 'rich_text_section', elements}] *)
Record RichTextSection : Type := { section_elements : list Inline }.

(** The elements of a [rich_text] block: a [rich_text_section], or
    [{type: 'rich_text_list', style, elements}]. *)
Inductive RichElement : Type :=
| rich_text_section (s : RichTextSection)
| rich_text_list (style : str) (elements : list RichTextSection).

Inductive Block : Type :=
| header_ (plain_text : str)
| section_ (mrkdwn : str)
| rich_text (elements : list RichElement).

(* ================================================================= *)
(** ** [versionToBlocks] *)

(** The callback of [item.sections.map]. *)
Definition run_to_inline (section : Run) : Inline :=
  match section with
  | Text text => text_ text false
  | Link _ url text => link_ url text
  end.

(** The callback of [section.items.map]. *)
Definition item_to_section (it : ItemRecord) : RichTextSection :=
  {| section_elements := map run_to_inline (runs it) |}.

(** The block pushed for one section. *)
Definition section_to_block (section : SectionRecord) : Block :=
  rich_text
    [ rich_text_section
        {| section_elements := [text_ (Some (title section ++ [LF])) true] |};
      rich_text_list (lit "bullet") (map item_to_section (items section)) ].

(** [${x}] in a template literal. *)
Definition template (x : option str) : str :=
  match x with
  | Some s => s
  | None => lit "undefined"
  end.

(** The text of the leading block. *)
Definition summary (h : HeaderRecord) : str :=
  if truthy (url h) then
    lit "<" ++ template (url h) ++ lit "|" ++ version h ++ lit "> ("
    ++ date h ++ lit ")"
  else version h ++ lit " (" ++ date h ++ lit ")".

(** [versionToBlocks(version)]; [version] is [versions[0]], which is
    [undefined] when [versions] is empty. *)
Definition versionToBlocks (version : option Version) : result (list Block) :=
  match version with
  | None => Err (TypeError_undefined "header")
  | Some v =>
      let blocks := [section_ (summary (header v))] in
      Ok (blocks ++ map section_to_block (sections v))
  end.

(* ================================================================= *)
(** ** [addHeader] and [run] *)

(** [Array.prototype.unshift]: the new contents of the array. *)
Definition unshift {A : Type} (arr items : list A) : list A := items ++ arr.

(** [addHeader] changes [blocks] in place; the result is its new contents. *)
Definition addHeader (blocks : list Block) (serviceName : str) : list Block :=
  let header := [header_ (lit "Release Note - " ++ serviceName)] in
  unshift blocks header.

(** The part of [run] between reading the inputs and [sendMessage]: the
    blocks that are sent, or the error that is caught and reported with
    [core.setFailed]. *)
Definition run (markdown serviceName : str) : result (list Block) :=
  versions <- parseMarkdown markdown ;;
  let latestVersion := nth_error versions 0 in
  blocks <- versionToBlocks latestVersion ;;
  Ok (addHeader blocks serviceName).

(* ================================================================= *)
(** ** Vocabulary of the statements about the blocks *)

(** [<url|version> (date)] *)
Definition link_summary (u : str) (h : HeaderRecord) : str :=
  lit "<" ++ u ++ lit "|" ++ version h ++ lit "> (" ++ date h ++ lit ")".

(** [version (date)] *)
Definition plain_summary (h : HeaderRecord) : str :=
  version h ++ lit " (" ++ date h ++ lit ")".

(** [block] is the rich-text block of [section]: its bold title line, then
    a bullet list with one entry per item. *)
Definition block_of_section (section : SectionRecord) (block : Block) : Prop :=
  exists entries,
    block = rich_text
              [ rich_text_section
                  {| section_elements :=
                       [text_ (Some (title section ++ [LF])) true] |};
                rich_text_list (lit "bullet") entries ] /\
    length entries = length (items section).

(** The leading block has the link form exactly when the url is present. *)
Definition leading_block_by_presence (v : Version) : Prop :=
  exists rest,
    versionToBlocks (Some v) =
    Ok (section_ (match url (header v) with
                  | Some u => link_summary u (header v)
                  | None => plain_summary (header v)
                  end) :: rest).

(** The record of the header line [# [1.0]() (2024-01-05)]. *)
Definition version_empty_url : Version :=
  {| header := {| version := lit "1.0"; date := lit "2024-01-05";
                  url := Some (lit "") |};
     sections := [] |}.

(** A record with and a record without a url, two sections each. *)
Definition version_sample (u : option str) : Version :=
  {| header := {| version := lit "1.2.0"; date := lit "2024-01-05"; url := u |};
     sections :=
       [ {| title := lit "Features";
            items := [ {| item := None;
                          runs := [Text (Some (lit "a ")); 
                                   Link (lit "[b](c)") (lit "c") (lit "b");
                                   Text (Some (lit ""))] |} ] |};
         {| title := lit "Fixes"; items := [] |} ] |}.

(* ================================================================= *)
(** ** Vocabulary of the statements about [run] *)

(** [run] does not fail by reading [header] of an undefined version. *)
Definition no_renderer_crash (markdown serviceName : str) : Prop :=
  run markdown serviceName <> Err (TypeError_undefined "header").

(* ================================================================= *)
(** ** [getServiceName], [sendMessage] and the effects of [run] *)

(** [Array.prototype.join] on an array of strings. *)
Fixpoint join (arr : list str) (sep : str) : str :=
  match arr with
  | [] => []
  | x :: arr' =>
      match arr' with
      | [] => x
      | _ :: _ => x ++ sep ++ join arr' sep
      end
  end.

(** [String.prototype.charAt]: the empty string when [i] is out of range. *)
Definition charAt (s : str) (i : nat) : str :=
  match nth_error s i with
  | Some c => [c]
  | None => []
  end.

(** [String.prototype.slice] with a start index. *)
Definition slice (s : str) (start : nat) : str := skipn start s.

(** The capital of an ASCII letter; every other code unit is itself. *)
Definition capital (c : ascii) : ascii :=
  if (97 <=? nat_of_ascii c) && (nat_of_ascii c <=? 122)
  then ascii_of_nat (nat_of_ascii c - 32)
  else c.

(** The ASCII code units. *)
Definition is_ascii (c : ascii) : bool := nat_of_ascii c <? 128.

(** [String.prototype.toUpperCase] on ASCII strings. *)
Definition toUpperCase_ascii (s : str) : str := map capital s.

(** What [core.setFailed] is called with: the message of a [TypeError] of
    the code, the message of an error thrown by the file system or by the HTTP
    client, or [Request failed with status code] and the code. *)
Inductive failure : Type :=
| Thrown (e : exn)
| Message (message : str)
| StatusCode (statusCode : nat).

(** What [http.post] does: it answers with a status code, or throws. *)
Inductive http_result : Type :=
| Response (statusCode : nat)
| PostThrows (message : str).

(** What [run] reads from outside: the two inputs, the repository name of
    the context, the webhook url of the environment, the file system (the
    content of a file, or the message of the error [readFileSync] throws) and
    the HTTP client. *)
Record world : Type :=
  { input_service_name : str;
    input_change_log_path : str;
    repo : str;
    SLACK_WEBHOOK_URL : option str;
    readFileSync : str -> str + str;
    post : option str -> list Block -> http_result }.

(** What [run] does to the outside: the calls of [http.post] with their url
    and the blocks of their body, and the calls of [core.setFailed]. *)
Record effects : Type :=
  { requests : list (option str * list Block);
    failures : list failure }.

Section Action.

(** [String.prototype.toUpperCase]; its values on code units that are not
    ASCII are not all 8-bit, so it is left open here. *)
Variable toUpperCase : str -> str.

(** The callback of [map] in [getServiceName]. *)
Definition capitalize (word : str) : str :=
  toUpperCase (charAt word 0) ++ slice word 1.

(** [getServiceName], from the input [service-name] and the repository
    name. *)
Definition getServiceName (inputServiceName repoName : str) : str :=
  if truthy (Some inputServiceName) then inputServiceName
  else
    join
      (map capitalize
         (split (join (split repoName (lit "-")) (lit " ")) (lit " ")))
      (lit " ").

(** [sendMessage]: one call of [http.post]; a status code other than 200
    and a thrown error are reported with [core.setFailed]. *)
Definition sendMessage (w : world) (blocks : list Block)
  (webhookUrl : option str) : effects :=
  {| requests := [(webhookUrl, blocks)];
     failures :=
       match post w webhookUrl blocks with
       | Response statusCode =>
           if statusCode =? 200 then [] else [StatusCode statusCode]
       | PostThrows message => [Message message]
       end |}.

(** [run] with its effects: whatever is thrown before [sendMessage] is
    caught and reported with [core.setFailed]. *)
Definition run_in (w : world) : effects :=
  let serviceName := getServiceName (input_service_name w) (repo w) in
  let changeLogPath := input_change_log_path w in
  let webhookUrl := SLACK_WEBHOOK_URL w in
  match readFileSync w changeLogPath with
  | inr message => {| requests := []; failures := [Message message] |}
  | inl markdown =>
      match run markdown serviceName with
      | Err e => {| requests := []; failures := [Thrown e] |}
      | Ok blocks => sendMessage w blocks webhookUrl
      end
  end.

(** The title-casing pass: a hyphen or a space becomes a space, a character
    that begins the name or follows a hyphen or a space goes through
    [toUpperCase], every other character stays. *)
Fixpoint title_case (start : bool) (s : str) : str :=
  match s with
  | [] => []
  | c :: s' =>
      if Ascii.eqb c "-" || Ascii.eqb c " " then " "%char :: title_case true s'
      else (if start then toUpperCase [c] else [c]) ++ title_case false s'
  end.

End Action.

(** [sep] occurs in [s]. *)
Definition occurs (sep s : str) : Prop := exists a b, s = a ++ sep ++ b.

(* ================================================================= *)
(** ** Vocabulary of the further statements *)

(** How many of the four conditions of the first loop hold of a line. *)
Definition kinds (line : str) : nat :=
  length (filter (fun b : bool => b)
            [is_bracket_header line; is_bare_header line;
             is_section_line line; is_item_line line]).

(** Whether the current version of a store has a section. *)
Definition has_section (st : store) : bool :=
  match sections (nth (currentVersion st) (heap st) placeholder) with
  | [] => false
  | _ :: _ => true
  end.

(** The errors [parseMarkdown] can end with. *)
Definition parse_error (e : exn) : Prop :=
  e = TypeError_null "1" \/ e = TypeError_null "0" \/
  e = TypeError_undefined "split" \/ e = TypeError_undefined "items".

(** No character of [v] is [x] or a line terminator. *)
Definition clean (x : ascii) (v : str) : Prop :=
  Forall (fun c => c <> x /\ is_line_terminator c = false) v.

(** The shape of the fields of a header record: the date is a
    [YYYY-MM-DD] text; with a url, the version has no closing bracket and the
    url no closing parenthesis; without a url, the version has no space. *)
Definition header_shape (h : HeaderRecord) : Prop :=
  date_shape (date h) = true /\
  match url h with
  | Some u => clean "]" (version h) /\ clean ")" u
  | None => clean " " (version h)
  end.

(** The pattern [p(.*?)x], for literal [p] and [x]. *)
Definition re_until (p : str) (x : ascii) : regex :=
  {| anchored := false;
     body := map (fun c => One (Lit c)) p ++
             [GOpen; Lazy Any; GClose; One (Lit x)] |}.


(** The strings of a run. *)
Definition run_strings (r : Run) : list str :=
  match r with
  | Text (Some text) => [text]
  | Text None => []
  | Link raw url text => [raw; url; text]
  end.

(** [s] has no angle bracket in it. *)
Definition no_angle (s : str) : Prop :=
  ~ In "<"%char s /\ ~ In ">"%char s.

(** The characters that the normalisation of an item takes away or
    escapes, and the one that begins a link. *)
Definition special (c : ascii) : bool :=
  existsb (Ascii.eqb c) (lit "*&<>[").

(** A text without a star, an ampersand, an angle bracket or an opening
    bracket. *)
Definition plain (s : str) : Prop := Forall (fun c => special c = false) s.

(** The markup of a link with display text [t] and url [u]. *)
Definition markup (t u : str) : str :=
  lit "[" ++ t ++ lit "](" ++ u ++ lit ")".

(* ================================================================= *)
(** * Properties *)

(** ** The library functions on small inputs *)

Example split_commas :
  split (lit "a,b,,c,") (lit ",") = [lit "a"; lit "b"; lit ""; lit "c"; lit ""].
Proof. reflexivity. Qed.

Example split_empty : split (lit "") [LF] = [lit ""].
Proof. reflexivity. Qed.

Example split_absent : split (lit ") and (") (lit "[a](b)") = [lit ") and ("].
Proof. reflexivity. Qed.

Example replaceAll_stars :
  replaceAll (lit "* a **b** ***c") (lit "**") (lit "") = lit "* a b *c".
Proof. reflexivity. Qed.

Example replace_first_only :
  replace (lit "### a ### b") (lit "### ") (lit "") = lit "a ### b".
Proof. reflexivity. Qed.

(** [\d+] gives digits back to the [.] that follow it. *)
Example bare_header_backtracks :
  match_ (lit "# 12345 x") re_bare_header = Some [lit "# 12345"].
Proof. reflexivity. Qed.

Example bare_header_two_numbers :
  match_ (lit "# 1.0 (2024-01-02)") re_bare_header = None.
Proof. reflexivity. Qed.

(** [.*?] stops at the first [)], and does not pass a carriage return. *)
Example paren_first :
  match_ (lit "a (b) (c)") re_paren = Some [lit "(b)"; lit "b"].
Proof. reflexivity. Qed.

Example paren_carriage_return :
  match_ (lit "(a" ++ [CR] ++ lit ") (b)") re_paren = Some [lit "(b)"; lit "b"].
Proof. reflexivity. Qed.

Example date_first :
  match_ (lit "v 12024-01-05 2025-02-03") re_date = Some [lit "2024-01-05"].
Proof. reflexivity. Qed.

Example links_all :
  match_g (lit "x [a](b) y [c]d](e) [f] (g)") re_link =
  Some [lit "[a](b)"; lit "[c]d](e)"].
Proof. reflexivity. Qed.

Example links_none : match_g (lit "no link [here] (at all)") re_link = None.
Proof. reflexivity. Qed.

(** The same link three times: [itemCpy] is [undefined] when the loop comes
    to the third. *)
Example link_three_times :
  item_sections (lit "* [a](b)[a](b)[a](b)") =
  Err (TypeError_undefined "split").
Proof. reflexivity. Qed.

(** ** Strings *)

Lemma startsWith_app (p t : str) : startsWith (p ++ t) p = true.
Proof.
  induction p as [|a p IH]; simpl; [reflexivity|].
  now rewrite Ascii.eqb_refl, IH.
Qed.

Lemma startsWith_inv (s p : str) :
  startsWith s p = true -> exists t, s = p ++ t.
Proof.
  revert s; induction p as [|a p IH]; intros s H; simpl in *.
  - now exists s.
  - destruct s as [|c s]; [discriminate|].
    apply andb_true_iff in H as [Hc Hs].
    apply Ascii.eqb_eq in Hc; subst c.
    destruct (IH _ Hs) as [t ->]. now exists t.
Qed.

(* ================================================================= *)
(** ** The matcher against the meaning of a pattern *)

Module RegexFacts.

Section Continuation.

Variable k : cls.
Variable k0 : str -> option found.

Lemma skip_seg_inv (s : str) (m : found) :
  skip_seg (k0 s) = Some m -> hands_over k0 [] s m.
Proof.
  unfold skip_seg. destruct (k0 s) as [[segs rest]|] eqn:E; [|discriminate].
  intros [= <-]. now exists segs, s.
Qed.

Lemma cons_seg_inv (c : ascii) (o : option found) (m : found) :
  cons_seg c o = Some m ->
  exists seg segs rest, o = Some (seg :: segs, rest) /\
                        m = ((c :: seg) :: segs, rest).
Proof.
  destruct o as [[[|seg segs] rest]|]; simpl; try discriminate.
  intros [= <-]. now exists seg, segs, rest.
Qed.

Lemma hands_over_cons (c : ascii) (seg s : str) (segs : list str) (rest : str) :
  hands_over k0 seg s (seg :: segs, rest) ->
  hands_over k0 (c :: seg) (c :: s) ((c :: seg) :: segs, rest).
Proof.
  intros (segs' & s' & H1 & H2 & H3); simpl in *.
  injection H1 as <-. subst s. now exists segs, s'.
Qed.

Lemma times_inv (n : nat) (s : str) (m : found) :
  times k n k0 s = Some m ->
  exists seg, hands_over k0 seg s m /\ length seg = n /\
              Forall (fun c => cls_match k c = true) seg.
Proof.
  revert s m; induction n as [|n IH]; intros s m H; simpl in H.
  - exists []. split; [now apply skip_seg_inv|].
    split; [reflexivity|constructor].
  - destruct s as [|c s]; [discriminate|].
    destruct (cls_match k c) eqn:Ec; [|discriminate].
    apply cons_seg_inv in H as (seg & segs & rest & Ho & ->).
    destruct (IH _ _ Ho) as (seg' & Hh & Hl & Ha).
    assert (seg' = seg) as ->
        by (destruct Hh as (? & ? & Hf & _); now inversion Hf).
    exists (c :: seg). split; [now apply hands_over_cons|].
    split; [simpl; now f_equal|now constructor].
Qed.

Lemma lazy_inv (s : str) (m : found) :
  lazy k k0 s = Some m ->
  exists seg, hands_over k0 seg s m /\
              Forall (fun c => cls_match k c = true) seg.
Proof.
  revert m; induction s as [|c s IH]; intros m H; simpl in H.
  - destruct (k0 []) eqn:E; [|discriminate].
    exists []. split; [|constructor].
    apply skip_seg_inv. now rewrite E.
  - destruct (k0 (c :: s)) eqn:E.
    + exists []. split; [|constructor]. apply skip_seg_inv. now rewrite E.
    + destruct (cls_match k c) eqn:Ec; [|discriminate].
      apply cons_seg_inv in H as (seg & segs & rest & Ho & ->).
      destruct (IH _ Ho) as (seg' & Hh & Ha).
      assert (seg' = seg) as ->
        by (destruct Hh as (? & ? & Hf & _); now inversion Hf).
      exists (c :: seg). split; [now apply hands_over_cons|now constructor].
Qed.

Lemma greedy_inv (s : str) (m : found) :
  greedy k k0 s = Some m ->
  exists seg, hands_over k0 seg s m /\
              Forall (fun c => cls_match k c = true) seg.
Proof.
  revert m; induction s as [|c s IH]; intros m H; simpl in H.
  - exists []. split; [now apply skip_seg_inv|constructor].
  - destruct (cls_match k c) eqn:Ec.
    + destruct (cons_seg c (greedy k k0 s)) as [m'|] eqn:E.
      * injection H as ->.
        apply cons_seg_inv in E as (seg & segs & rest & Ho & ->).
        destruct (IH _ Ho) as (seg' & Hh & Ha).
        assert (seg' = seg) as ->
            by (destruct Hh as (? & ? & Hf & _); now inversion Hf).
        exists (c :: seg). split; [now apply hands_over_cons|now constructor].
      * exists []. split; [now apply skip_seg_inv|constructor].
    + exists []. split; [now apply skip_seg_inv|constructor].
Qed.

(** Backtracking is exhaustive: when the continuation accepts what is left
    after some run of [k], the quantified class finds a match. *)
Lemma times_some (seg s' : str) :
  Forall (fun c => cls_match k c = true) seg -> k0 s' <> None ->
  times k (length seg) k0 (seg ++ s') <> None.
Proof.
  induction 1 as [|c seg Hc _ IH]; intros Hk; simpl.
  - destruct (k0 s') as [[? ?]|]; [discriminate|contradiction].
  - rewrite Hc. specialize (IH Hk).
    destruct (times k (length seg) k0 (seg ++ s')) as [m|] eqn:E;
      [|contradiction].
    destruct (times_inv _ _ _ E) as (sg & (segs' & ? & Hf & _) & _).
    destruct m as [segs rest]; simpl in Hf; subst segs. discriminate.
Qed.

Lemma lazy_some (seg s' : str) :
  Forall (fun c => cls_match k c = true) seg -> k0 s' <> None ->
  lazy k k0 (seg ++ s') <> None.
Proof.
  induction 1 as [|c seg Hc _ IH]; intros Hk; simpl.
  - destruct s' as [|c s']; simpl;
      destruct (k0 _) as [[? ?]|]; (discriminate || contradiction).
  - destruct (k0 (c :: seg ++ s')) as [[? ?]|]; [discriminate|].
    rewrite Hc. specialize (IH Hk).
    destruct (lazy k k0 (seg ++ s')) as [m|] eqn:E; [|contradiction].
    destruct (lazy_inv _ _ E) as (sg & (segs' & ? & Hf & _) & _).
    destruct m as [segs rest]; simpl in Hf; subst segs. discriminate.
Qed.

Lemma greedy_some_nil (s : str) : k0 s <> None -> greedy k k0 s <> None.
Proof.
  intros Hk. destruct s as [|c s]; simpl.
  - destruct (k0 []) as [[? ?]|]; [discriminate|contradiction].
  - destruct (cls_match k c).
    + destruct (cons_seg c (greedy k k0 s)); [discriminate|].
      destruct (k0 (c :: s)) as [[? ?]|]; [discriminate|contradiction].
    + destruct (k0 (c :: s)) as [[? ?]|]; [discriminate|contradiction].
Qed.

Lemma greedy_some (seg s' : str) :
  Forall (fun c => cls_match k c = true) seg -> k0 s' <> None ->
  greedy k k0 (seg ++ s') <> None.
Proof.
  induction 1 as [|c seg Hc _ IH]; intros Hk; simpl.
  - now apply greedy_some_nil.
  - rewrite Hc. specialize (IH Hk).
    destruct (greedy k k0 (seg ++ s')) as [m|] eqn:E; [|contradiction].
    destruct (greedy_inv _ _ E) as (sg & (segs' & ? & Hf & _) & _).
    destruct m as [segs rest]; simpl in Hf; subst segs. discriminate.
Qed.

(** A lazy class stops at the first point where the continuation
    accepts. *)
Lemma lazy_first (seg s' : str) (segs' : list str) (rest : str) :
  Forall (fun c => cls_match k c = true) seg ->
  (forall a c b, seg = a ++ c :: b -> k0 (c :: b ++ s') = None) ->
  k0 s' = Some (segs', rest) ->
  lazy k k0 (seg ++ s') = Some (seg :: segs', rest).
Proof.
  induction 1 as [|c seg Hc _ IH]; intros Hno Hk; simpl.
  - destruct s' as [|c s']; simpl; now rewrite Hk.
  - rewrite (Hno [] c seg eq_refl), Hc, IH; [reflexivity| |assumption].
    intros a c' b ->. now apply (Hno (c :: a) c' b).
Qed.

End Continuation.

(** Soundness: what [exec] returns is a match of the pattern, and splits the
    subject. *)
Lemma exec_sound (r : list atom) (s : str) (segs : list str) (rest : str) :
  exec r s = Some (segs, rest) -> matches r segs /\ s = concat segs ++ rest.
Proof.
  revert s segs rest; induction r as [|it r IH]; intros s segs rest H.
  - injection H as <- <-. split; [constructor|reflexivity].
  - assert (Hstep : forall seg, hands_over (exec r) seg s (segs, rest) ->
                                atom_ok it seg ->
                     matches (it :: r) segs /\ s = concat segs ++ rest).
    { intros seg (segs' & s' & Hf & -> & Hk) Hok; simpl in Hf, Hk; subst segs.
      destruct (IH _ _ _ Hk) as [Hm ->]. split; [now constructor|].
      simpl. now rewrite app_assoc. }
    destruct it as [k|k|k|n k| |]; cbn [exec] in H.
    + destruct (times_inv _ _ _ _ _ H) as (seg & Hh & Hl & Ha).
      apply (Hstep seg Hh). destruct seg as [|c [|? ?]]; try discriminate.
      exists c. split; [reflexivity|now inversion Ha].
    + destruct (lazy_inv _ _ _ _ H) as (seg & Hh & Ha).
      now apply (Hstep seg Hh).
    + destruct s as [|c s]; [discriminate|].
      destruct (cls_match k c) eqn:Ec; [|discriminate].
      apply cons_seg_inv in H as (seg & segs0 & rest0 & Ho & [= -> ->]).
      destruct (greedy_inv _ _ _ _ Ho) as (seg' & Hh & Ha).
      assert (seg' = seg) as ->
        by (destruct Hh as (? & ? & Hf & _); now inversion Hf).
      apply (Hstep (c :: seg)); [now apply hands_over_cons|].
      split; [discriminate|now constructor].
    + destruct (times_inv _ _ _ _ _ H) as (seg & Hh & Hl & Ha).
      now apply (Hstep seg Hh).
    + apply (Hstep []); [now apply skip_seg_inv|reflexivity].
    + apply (Hstep []); [now apply skip_seg_inv|reflexivity].
Qed.

(** Completeness: when some match of the pattern starts the subject, [exec]
    finds a match. *)
Lemma exec_complete (r : list atom) (segs : list str) (rest : str) :
  matches r segs -> exec r (concat segs ++ rest) <> None.
Proof.
  induction 1 as [|it seg r segs Hok _ IH]; [discriminate|].
  simpl concat. rewrite <- app_assoc.
  destruct it as [k|k|k|n k| |]; cbn [exec atom_ok] in Hok |- *.
  - destruct Hok as (c & -> & Hc). simpl. rewrite Hc.
    destruct (exec r (concat segs ++ rest)) as [[? ?]|];
      [discriminate|contradiction].
  - now apply lazy_some.
  - destruct Hok as [Hne Ha]. destruct seg as [|c seg]; [contradiction|].
    inversion Ha as [|? ? Hc Ha']; subst. simpl. rewrite Hc.
    pose proof (@greedy_some k (exec r) seg _ Ha' IH) as Hg.
    destruct (greedy k (exec r) (seg ++ concat segs ++ rest)) as [m|] eqn:E;
      [|contradiction].
    destruct (greedy_inv _ _ _ _ E) as (sg & (segs' & ? & Hf & _) & _).
    destruct m as [sgs rst]; simpl in Hf; subst sgs. discriminate.
  - destruct Hok as [<- Ha]. now apply times_some.
  - subst seg. simpl.
    destruct (exec r (concat segs ++ rest)) as [[? ?]|];
      [discriminate|contradiction].
  - subst seg. simpl.
    destruct (exec r (concat segs ++ rest)) as [[? ?]|];
      [discriminate|contradiction].
Qed.

(** [search] returns the match at the leftmost position where there is one. *)
Lemma search_sound (r : list atom) (s : str) (m : found) :
  search r s = Some m -> exists pre s', s = pre ++ s' /\ exec r s' = Some m.
Proof.
  induction s as [|c s IH]; simpl.
  - destruct (exec r []) eqn:E; [|discriminate].
    intros [= <-]. now exists [], [].
  - destruct (exec r (c :: s)) eqn:E.
    + intros [= <-]. now exists [], (c :: s).
    + intros H. destruct (IH H) as (pre & s' & -> & He).
      now exists (c :: pre), s'.
Qed.

Lemma search_first (r : list atom) (pre s' : str) (m : found) :
  (forall a c b, pre = a ++ c :: b -> exec r (c :: b ++ s') = None) ->
  exec r s' = Some m ->
  search r (pre ++ s') = Some m.
Proof.
  induction pre as [|c pre IH]; intros Hno He; simpl.
  - destruct s'; simpl; now rewrite He.
  - rewrite (Hno [] c pre eq_refl). apply IH; [|assumption].
    intros a c' b ->. now apply (Hno (c :: a) c' b).
Qed.

Lemma search_none (r : list atom) (s : str) :
  (forall pre s', s = pre ++ s' -> exec r s' = None) -> search r s = None.
Proof.
  induction s as [|c s IH]; intros H; simpl.
  - now rewrite (H [] [] eq_refl).
  - rewrite (H [] (c :: s) eq_refl). apply IH.
    intros pre s' ->. now apply (H (c :: pre) s').
Qed.

Lemma matches_cons_inv (it : atom) (r : list atom) (segs : list str) :
  matches (it :: r) segs ->
  exists seg segs', segs = seg :: segs' /\ atom_ok it seg /\ matches r segs'.
Proof. intros H. inversion H; subst. eauto. Qed.

Lemma matches_nil_inv (segs : list str) : matches [] segs -> segs = [].
Proof. intros H. now inversion H. Qed.

Lemma cls_match_Lit (a c : ascii) : cls_match (Lit a) c = true -> c = a.
Proof. simpl. intros H. now apply Ascii.eqb_eq in H. Qed.

End RegexFacts.
Import RegexFacts.

(* ================================================================= *)
(** ** The four kinds of line exclude one another *)

(** A line that matches [/^# \d+.\d+.\d+/] begins with [# ] and a digit. *)
Lemma is_bare_header_inv (line : str) :
  is_bare_header line = true ->
  exists c t, line = lit "# " ++ c :: t /\ is_digit c = true.
Proof.
  unfold is_bare_header, match_, find. simpl anchored.
  destruct (exec (body re_bare_header) line) as [[segs rest]|] eqn:E;
    [intros _|discriminate].
  apply exec_sound in E as [Hm ->].
  apply matches_cons_inv in Hm as (s1 & ? & -> & (c1 & -> & H1) & Hm).
  apply matches_cons_inv in Hm as (s2 & ? & -> & (c2 & -> & H2) & Hm).
  apply matches_cons_inv in Hm as (s3 & ? & -> & [Hne H3] & Hm).
  apply cls_match_Lit in H1, H2; subst.
  destruct s3 as [|c s3]; [contradiction|].
  inversion H3; subst. simpl. rewrite <- app_assoc. eauto.
Qed.

Lemma bracket_excludes (line : str) :
  is_bracket_header line = true ->
  is_bare_header line = false /\ is_section_line line = false /\
  is_item_line line = false.
Proof.
  unfold is_bracket_header. intros H.
  apply orb_true_iff in H as [H|H];
    apply startsWith_inv in H as [t ->]; repeat split; reflexivity.
Qed.

Lemma bare_excludes (line : str) :
  is_bare_header line = true ->
  is_bracket_header line = false /\ is_section_line line = false /\
  is_item_line line = false.
Proof.
  intros H. destruct (is_bracket_header line) eqn:E.
  - apply bracket_excludes in E as [E _]. congruence.
  - apply is_bare_header_inv in H as (c & t & -> & _).
    repeat split; reflexivity.
Qed.

Lemma section_excludes (line : str) :
  is_section_line line = true -> is_item_line line = false.
Proof. intros H. apply startsWith_inv in H as [t ->]. reflexivity. Qed.

Lemma scan_line_eq (elements : list Element) (line : str) :
  scan_line elements line =
  (added <- line_elements line ;; Ok (elements ++ added)).
Proof.
  unfold scan_line, line_elements, is_header_line, header_of.
  destruct (is_bracket_header line) eqn:E1.
  - destruct (bracket_excludes _ E1) as (-> & -> & ->). simpl.
    now destruct (bracket_header line).
  - destruct (is_bare_header line) eqn:E2; simpl.
    + destruct (bare_excludes _ E2) as (_ & -> & ->).
      now destruct (bare_header line).
    + destruct (is_section_line line) eqn:E3; simpl.
      * now rewrite (section_excludes _ E3).
      * destruct (is_item_line line); simpl.
        -- now destruct (item_sections line).
        -- now rewrite app_nil_r.
Qed.

Lemma scan_acc (elements : list Element) (lines : list str) :
  scan elements lines = (added <- scan [] lines ;; Ok (elements ++ added)).
Proof.
  revert elements; induction lines as [|line lines IH]; intros elements; simpl.
  - now rewrite app_nil_r.
  - rewrite !scan_line_eq. destruct (line_elements line) as [added|e]; simpl;
      [|reflexivity].
    rewrite IH, (IH added).
    destruct (scan [] lines) as [more|e]; simpl; [|reflexivity].
    now rewrite app_assoc.
Qed.

Lemma scan_cons (line : str) (lines : list str) :
  scan [] (line :: lines) =
  (added <- line_elements line ;; more <- scan [] lines ;; Ok (added ++ more)).
Proof.
  simpl. rewrite scan_line_eq.
  destruct (line_elements line) as [added|e]; simpl; [|reflexivity].
  apply scan_acc.
Qed.

Lemma scan_app (pre rest : list str) :
  scan [] (pre ++ rest) =
  (added <- scan [] pre ;; more <- scan [] rest ;; Ok (added ++ more)).
Proof.
  induction pre as [|line pre IH].
  - simpl. now destruct (scan [] rest).
  - rewrite <- app_comm_cons, !scan_cons.
    destruct (line_elements line) as [added|e]; simpl; [|reflexivity].
    rewrite IH. destruct (scan [] pre) as [a|e]; simpl; [|reflexivity].
    destruct (scan [] rest) as [b|e]; simpl; [|reflexivity].
    now rewrite app_assoc.
Qed.

(* ================================================================= *)
(** ** The store of the second loop *)

Lemma header_of_raw (line : str) (element : Element) :
  header_of line = Ok element ->
  exists h, element = as_element line h.
Proof.
  unfold header_of, bracket_header, bare_header, as_element.
  destruct (is_bracket_header line).
  - destruct (index _ 1 "1") as [v|]; [|discriminate].
    destruct (index _ 0 "0") as [d|]; [|discriminate].
    destruct (index _ 1 "1") as [u|]; [|discriminate].
    intros [= <-]. now exists {| version := v; date := d; url := Some u |}.
  - destruct (index _ 1 "1") as [v|]; [|discriminate].
    destruct (index _ 0 "0") as [d|]; [|discriminate].
    intros [= <-]. now exists {| version := v; date := d; url := None |}.
Qed.

Lemma headers_app (a b : list Element) :
  headers (a ++ b) = headers a ++ headers b.
Proof. apply flat_map_app. Qed.

(** The headers of the elements are those of the header lines, in order. *)
Lemma scan_headers (lines : list str) (elements : list Element) :
  scan [] lines = Ok elements ->
  Forall2 (fun line h => header_of line = Ok (as_element line h))
    (filter is_header_line lines) (headers elements).
Proof.
  revert elements; induction lines as [|line lines IH]; intros elements.
  - intros [= <-]. constructor.
  - rewrite scan_cons. unfold line_elements. simpl filter.
    destruct (is_header_line line) eqn:Eh.
    + destruct (header_of line) as [element|] eqn:E; [|discriminate]. simpl.
      destruct (scan [] lines) as [more|]; [|discriminate]. intros [= <-].
      destruct (header_of_raw _ _ E) as [h ->]. simpl. constructor; auto.
    + destruct (is_section_line line).
      * simpl. destruct (scan [] lines) as [more|]; [|discriminate].
        intros [= <-]. simpl. auto.
      * destruct (is_item_line line).
        -- destruct (item_sections line); [|discriminate]. simpl.
           destruct (scan [] lines) as [more|]; [|discriminate].
           intros [= <-]. simpl. auto.
        -- simpl. destruct (scan [] lines) as [more|]; [|discriminate].
           intros [= <-]. simpl. auto.
Qed.

Lemma update_length {A : Type} (l : list A) (i : nat) (f : A -> A) :
  length (update l i f) = length l.
Proof.
  revert i; induction l as [|x l IH]; intros [|i]; simpl; auto.
Qed.

Lemma nth_update_inv {A B : Type} (g : A -> B) (f : A -> A) (l : list A)
  (i r : nat) (d : A) :
  (forall x, g (f x) = g x) ->
  g (nth r (update l i f) d) = g (nth r l d).
Proof.
  intros Hf. revert i r.
  induction l as [|x l IH]; intros [|i] [|r]; simpl; auto.
Qed.

Lemma nth_error_last_some {A : Type} (l : list A) :
  l <> [] -> exists x, nth_error l (length l - 1) = Some x.
Proof.
  intros Hne. destruct (nth_error l (length l - 1)) eqn:E; [eauto|].
  apply nth_error_None in E. destruct l; [contradiction|simpl in E; lia].
Qed.

(** The only error of the second loop. *)
Lemma step_error (st : store) (element : Element) (e : exn) :
  step st element = Err e -> e = TypeError_undefined "items".
Proof.
  destruct element; simpl; try discriminate.
  destruct (nth_error _ _); [discriminate|]. now intros [= <-].
Qed.

Lemma build_error (elements : list Element) (st : store) (e : exn) :
  build st elements = Err e -> e = TypeError_undefined "items".
Proof.
  revert st; induction elements as [|element elements IH]; intros st; simpl;
    [discriminate|].
  destruct (step st element) as [st'|e'] eqn:E; simpl.
  - apply IH.
  - intros [= <-]. now apply step_error in E.
Qed.

Lemma build_cons (element : Element) (l : list Element) (st : store) :
  build st (element :: l) = (st' <- step st element ;; build st' l).
Proof. reflexivity. Qed.

Lemma build_app (a b : list Element) (st : store) :
  build st (a ++ b) = (st' <- build st a ;; build st' b).
Proof.
  revert st; induction a as [|element a IH]; intros st; simpl; [reflexivity|].
  destruct (step st element); simpl; auto.
Qed.

Lemma step_headers (st st' : store) (element : Element) :
  step st element = Ok st' -> in_heap st ->
  in_heap st' /\
  map header (deref st') = map header (deref st) ++ headers [element].
Proof.
  unfold in_heap, deref. destruct element as [raw v d u|raw t|raw rs]; simpl.
  - intros [= <-] Hin; simpl. split.
    + apply Forall_app. split.
      * eapply Forall_impl; [|exact Hin]. intros r Hr.
        rewrite length_app; simpl in *; lia.
      * constructor; [|constructor]. rewrite length_app; simpl; lia.
    + rewrite !map_app. simpl. rewrite nth_middle. f_equal.
      rewrite !map_map. apply map_ext_in. intros r Hr.
      rewrite Forall_forall in Hin. now rewrite app_nth1 by auto.
  - intros [= <-] Hin; simpl. split.
    + now rewrite update_length.
    + rewrite app_nil_r, !map_map. apply map_ext. intros r.
      now apply nth_update_inv.
  - destruct (nth_error _ _); [|discriminate].
    intros [= <-] Hin; simpl. split.
    + now rewrite update_length.
    + rewrite app_nil_r, !map_map. apply map_ext. intros r.
      now apply nth_update_inv.
Qed.

Lemma build_headers (elements : list Element) (st st' : store) :
  build st elements = Ok st' -> in_heap st ->
  map header (deref st') = map header (deref st) ++ headers elements.
Proof.
  revert st; induction elements as [|element elements IH]; intros st; simpl.
  - intros [= <-] _. now rewrite app_nil_r.
  - destruct (step st element) as [st1|] eqn:E; [|discriminate]. simpl.
    intros Hb Hin. destruct (step_headers _ _ _ E Hin) as [Hin1 H1].
    rewrite (IH _ Hb Hin1), H1. simpl headers at 1.
    rewrite app_nil_r, <- app_assoc. reflexivity.
Qed.

Lemma Forall2_map_r_inv {A B C : Type} (R : A -> C -> Prop) (f : B -> C)
  (l : list A) (l' : list B) :
  Forall2 R l (map f l') -> Forall2 (fun a b => R a (f b)) l l'.
Proof.
  revert l; induction l' as [|b l' IH]; intros l H; inversion H; subst;
    constructor; auto.
Qed.

(** The header records of the result are those of the header lines. *)
Lemma parse_lines_headers (lines : list str) (vs : list Version) :
  parse_lines lines = Ok vs ->
  Forall2 (fun line v => header_of line = Ok (as_element line (header v)))
    (filter is_header_line lines) vs.
Proof.
  unfold parse_lines.
  destruct (scan [] lines) as [elements|] eqn:Es; [|discriminate]. simpl.
  destruct (build init elements) as [st|] eqn:Eb; [|discriminate]. simpl.
  intros [= <-].
  apply (Forall2_map_r_inv
           (fun line h => header_of line = Ok (as_element line h)) header).
  assert (Hin : in_heap init) by constructor.
  rewrite (build_headers _ _ _ Eb Hin). simpl.
  now apply scan_headers.
Qed.

(* ================================================================= *)
(** ** The worked example *)

(** C4: the three-line changelog of the worked example parses to one version
    record, 1.2.0 of 2024-01-05 with url http://x/1.2.0, with the one section
    "Features" and in it one item, whose runs are the text "Add foo support (",
    the link "#12" to http://x/12 and the text ")". *)
Theorem parse_changelog_example :
  parseMarkdown changelog_example =
  Ok [ {| header := {| version := lit "1.2.0";
                       date := lit "2024-01-05";
                       url := Some (lit "http://x/1.2.0") |};
          sections :=
            [ {| title := lit "Features";
                 items :=
                   [ {| item := None;
                        runs :=
                          [ Text (Some (lit "Add foo support ("));
                            Link (lit "[#12](http://x/12)") (lit "http://x/12")
                                 (lit "#12");
                            Text (Some (lit ")")) ] |} ] |} ] |} ].
Proof. vm_compute. reflexivity. Qed.

(* ================================================================= *)
(** ** One record per header line *)

(** C5, as stated, fails: the line [# [1.0]] is a header line, and the parse
    of the document that consists of it returns no record. *)
Lemma header_without_date_no_record :
  ~ returns_header_records (lit "# [1.0]").
Proof.
  intros (vs & H & _). vm_compute in H. discriminate.
Qed.

(** C5, amended: when the parse of a document returns, it returns one record
    per header line, and the i-th record has the version, date and url of the
    i-th header line: the order of the document, nothing merged or sorted. *)
Theorem parse_one_record_per_header (markdown : str) (vs : list Version) :
  parseMarkdown markdown = Ok vs ->
  length vs = length (header_lines markdown) /\
  Forall2 (fun line v => header_of line = Ok (as_element line (header v)))
    (header_lines markdown) vs.
Proof.
  intros H. apply parse_lines_headers in H.
  split; [symmetry; exact (Forall2_length H)|exact H].
Qed.

Lemma parse_one_record_per_header_witness :
  length (header_lines changelog_repeated) = 3 /\
  exists vs, parseMarkdown changelog_repeated = Ok vs /\
    map (fun v => version (header v)) vs =
    [lit "1.0.0"; lit "1.0.0"; lit "1.0.0"] /\
    length vs = length (header_lines changelog_repeated) /\
    Forall2 (fun line v => header_of line = Ok (as_element line (header v)))
      (header_lines changelog_repeated) vs.
Proof.
  split; [reflexivity|].
  destruct (parseMarkdown changelog_repeated) as [vs|] eqn:E;
    [|vm_compute in E; discriminate].
  exists vs. split; [reflexivity|]. split.
  - vm_compute in E. injection E as <-. reflexivity.
  - exact (parse_one_record_per_header changelog_repeated vs E).
Defined.

(* ================================================================= *)
(** ** The blocks of a version *)

(** C7, as stated, fails: the header line [# [1.0]() (2024-01-05)] gives a
    record whose url is present and empty, and its leading block is the plain
    [1.0 (2024-01-05)], not [<|1.0> (2024-01-05)]. *)
Lemma empty_url_plain_summary :
  parseMarkdown (lit "# [1.0]() (2024-01-05)") = Ok [version_empty_url] /\
  versionToBlocks (Some version_empty_url) =
  Ok [section_ (lit "1.0 (2024-01-05)")] /\
  ~ leading_block_by_presence version_empty_url.
Proof.
  split; [vm_compute; reflexivity|]. split; [vm_compute; reflexivity|].
  intros (rest & H). vm_compute in H. discriminate.
Qed.

(** C7, amended: the first block of a version is a section block; its text is
    [<url|version> (date)] when the url is present and not empty, and
    [version (date)] when the url is absent or empty.  The blocks after it
    are the rich-text blocks of the sections, one per section, in the order
    of the sections. *)
Theorem versionToBlocks_blocks (v : Version) :
  exists text rest,
    versionToBlocks (Some v) = Ok (section_ text :: rest) /\
    (forall u, url (header v) = Some u -> u <> [] ->
               text = link_summary u (header v)) /\
    (url (header v) = None \/ url (header v) = Some [] ->
     text = plain_summary (header v)) /\
    Forall2 block_of_section (sections v) rest.
Proof.
  exists (summary (header v)), (map section_to_block (sections v)).
  split; [reflexivity|]. unfold summary. repeat split.
  - intros u -> Hu. destruct u; [contradiction|reflexivity].
  - intros [-> | ->]; reflexivity.
  - induction (sections v) as [|s l IH]; constructor; [|exact IH].
    exists (map item_to_section (items s)).
    split; [reflexivity|apply length_map].
Qed.

Lemma versionToBlocks_blocks_witness :
  (exists rest,
      versionToBlocks (Some (version_sample (Some (lit "http://x")))) =
      Ok (section_ (lit "<http://x|1.2.0> (2024-01-05)") :: rest) /\
      length rest = 2) /\
  (exists rest,
      versionToBlocks (Some (version_sample None)) =
      Ok (section_ (lit "1.2.0 (2024-01-05)") :: rest) /\
      length rest = 2).
Proof.
  split.
  - destruct (versionToBlocks_blocks (version_sample (Some (lit "http://x"))))
      as (text & rest & H & Hlink & _ & Hrest).
    exists rest. rewrite H, (Hlink (lit "http://x") eq_refl);
      [|discriminate].
    split; [reflexivity|]. symmetry. exact (Forall2_length Hrest).
  - destruct (versionToBlocks_blocks (version_sample None))
      as (text & rest & H & _ & Hplain & Hrest).
    exists rest. rewrite H, (Hplain (or_introl eq_refl)).
    split; [reflexivity|]. symmetry. exact (Forall2_length Hrest).
Defined.

(* ================================================================= *)
(** ** The title block *)

(** C9: [addHeader] puts one header block with the plain text
    [Release Note - ] followed by the display name in front of the blocks;
    the blocks that were there follow it, unchanged and in their order. *)
Theorem addHeader_prepends (blocks : list Block) (serviceName : str) :
  addHeader blocks serviceName =
  header_ (lit "Release Note - " ++ serviceName) :: blocks /\
  length (addHeader blocks serviceName) = S (length blocks) /\
  forall i, nth_error (addHeader blocks serviceName) (S i) = nth_error blocks i.
Proof. repeat split. Qed.

(* ================================================================= *)
(** ** Documents without a header line *)

(** C2, as stated, fails: the changelog has no header line, its parse returns
    the empty list, and [run] fails inside [versionToBlocks], reading
    [header] of the undefined [versions[0]]. *)
Lemma run_no_header_crashes_in_renderer :
  header_lines changelog_no_header = [] /\
  parseMarkdown changelog_no_header = Ok [] /\
  ~ no_renderer_crash changelog_no_header (lit "My Service").
Proof.
  split; [reflexivity|]. split; [vm_compute; reflexivity|].
  intros H. apply H. vm_compute. reflexivity.
Qed.

(** C2, amended: on a document without a header line [run] sends nothing and
    fails with a [TypeError]; there is no check of the empty list before the
    rendering: when the parse returns, it returns the empty list,
    [versionToBlocks] is called with the undefined [versions[0]], and the
    error is its reading of [header]. *)
Theorem run_without_header_line (markdown serviceName : str) :
  header_lines markdown = [] ->
  (exists e, run markdown serviceName = Err e) /\
  (forall vs, parseMarkdown markdown = Ok vs ->
              vs = [] /\
              versionToBlocks (nth_error vs 0) =
              Err (TypeError_undefined "header") /\
              run markdown serviceName = Err (TypeError_undefined "header")).
Proof.
  intros Hno. unfold run.
  destruct (parseMarkdown markdown) as [vs|e] eqn:E.
  - pose proof (Forall2_length (parse_lines_headers _ _ E)) as Hlen.
    fold (lines_of markdown) in Hlen. fold (header_lines markdown) in Hlen.
    rewrite Hno in Hlen. destruct vs; [|discriminate]. simpl.
    split; [eauto|]. intros vs [= <-]. auto.
  - simpl. split; [eauto|]. intros vs [=].
Qed.

Lemma run_without_header_line_witness :
  header_lines changelog_no_header = [] /\
  run changelog_no_header (lit "My Service") =
  Err (TypeError_undefined "header").
Proof.
  split; [reflexivity|].
  destruct (run_without_header_line changelog_no_header (lit "My Service")
              eq_refl) as [_ H].
  destruct (H [] ltac:(vm_compute; reflexivity)) as (_ & _ & Hrun).
  exact Hrun.
Defined.

(* ================================================================= *)
(** ** Items without a section *)

Lemma item_line_only (line : str) :
  is_item_line line = true ->
  is_header_line line = false /\ is_section_line line = false.
Proof.
  intros Hi. unfold is_header_line.
  destruct (is_bracket_header line) eqn:E1.
  { apply bracket_excludes in E1 as (_ & _ & E1). congruence. }
  destruct (is_bare_header line) eqn:E2.
  { apply bare_excludes in E2 as (_ & _ & E2). congruence. }
  destruct (is_section_line line) eqn:E3; [|auto].
  apply section_excludes in E3. congruence.
Qed.

Lemma scan_items_only (mid : list str) (elements : list Element) :
  Forall (fun l => is_header_line l = false /\ is_section_line l = false) mid ->
  scan [] mid = Ok elements -> Forall is_Item elements.
Proof.
  intros Hmid; revert elements.
  induction Hmid as [|line mid [Hh Hs] _ IH]; intros elements.
  - intros [= <-]. constructor.
  - rewrite scan_cons. unfold line_elements. rewrite Hh, Hs.
    destruct (is_item_line line).
    + destruct (item_sections line) as [rs|]; [|discriminate]. simpl.
      destruct (scan [] mid) as [more|]; [|discriminate]. intros [= <-].
      constructor; [now exists line, rs|now apply IH].
    + simpl. destruct (scan [] mid) as [more|]; [|discriminate].
      intros [= <-]. now apply IH.
Qed.

(** An item while the current version has no section is an error. *)
Lemma build_item_first (st : store) (mid post : list Element) (raw : str)
  (pieces : list Run) :
  sections (nth (currentVersion st) (heap st) placeholder) = [] ->
  Forall is_Item mid ->
  build st (mid ++ Item raw pieces :: post) = Err (TypeError_undefined "items").
Proof.
  intros Hs Hmid.
  assert (Hitem : forall r p l, build st (Item r p :: l)
                                = Err (TypeError_undefined "items")).
  { intros r p l. simpl. now rewrite Hs. }
  destruct Hmid as [|element mid (r & p & ->) _]; apply Hitem.
Qed.

Lemma step_header_fresh (st : store) (raw v d : str) (u : option str) :
  exists st', step st (Header raw v d u) = Ok st' /\
              sections (nth (currentVersion st') (heap st') placeholder) = [].
Proof.
  eexists. split; [reflexivity|]. simpl. now rewrite nth_middle.
Qed.

(** C6, as stated, fails: the item line of the changelog comes after a
    header line and before any section line, and the error of the parse is
    not an error about the item.  It is the [TypeError] of reading index [0]
    of the null match of the date in the header line further down, which the
    first loop raises before any item is placed; the parse of the two header
    lines alone raises the same error. *)
Lemma orphan_item_other_error :
  parseMarkdown changelog_orphan_item_broken_header =
  Err (TypeError_null "0") /\
  parseMarkdown (lit "# 1.0.0 (2024-01-05)" ++ [LF] ++ lit "# [1.0]") =
  Err (TypeError_null "0") /\
  ~ raises_for_orphan_item changelog_orphan_item_broken_header.
Proof.
  split; [vm_compute; reflexivity|]. split; [vm_compute; reflexivity|].
  intros H.
  assert (E : parseMarkdown changelog_orphan_item_broken_header =
              Err (TypeError_undefined "items")).
  { apply H.
    exists [], (lit "# 1.0.0 (2024-01-05)"), [], (lit "* early"),
      [lit "# [1.0]"].
    repeat split; constructor. }
  vm_compute in E. discriminate.
Qed.

(** C6, amended: when an item line comes after a header line with no section
    line (and no other header line) between them, the parse raises an error
    and returns nothing.  The error is a [TypeError] of the runtime: when the
    first loop went through, that of reading [items] of the undefined last
    section; when it did not, the error of the first loop, whatever line it
    comes from. *)
Theorem item_before_section_raises (markdown : str)
  (pre : list str) (h : str) (mid : list str) (it : str) (post : list str) :
  lines_of markdown = pre ++ h :: mid ++ it :: post ->
  is_header_line h = true ->
  Forall (fun l => is_header_line l = false /\ is_section_line l = false) mid ->
  is_item_line it = true ->
  (exists e, parseMarkdown markdown = Err e) /\
  (forall elements,
      scan [] (lines_of markdown) = Ok elements ->
      parseMarkdown markdown = Err (TypeError_undefined "items")) /\
  (forall e, scan [] (lines_of markdown) = Err e ->
             parseMarkdown markdown = Err e).
Proof.
  intros Hl Hh Hmid Hit. unfold parseMarkdown. fold (lines_of markdown).
  unfold parse_lines.
  destruct (scan [] (lines_of markdown)) as [elements|e] eqn:Es; simpl;
    [|split; [eauto|split; [intros ? [=]|now intros ? [= <-]]]].
  assert (Hb : build init elements = Err (TypeError_undefined "items")).
  { rewrite Hl, scan_app in Es.
    destruct (scan [] pre) as [e1|] eqn:E1; [|discriminate]. cbn [bind] in Es.
    rewrite scan_cons in Es. unfold line_elements in Es. rewrite Hh in Es.
    destruct (header_of h) as [eh|] eqn:Eh; [|discriminate]. cbn [bind] in Es.
    destruct (header_of_raw _ _ Eh) as [hr ->].
    rewrite scan_app in Es.
    destruct (scan [] mid) as [e2|] eqn:E2; [|discriminate]. cbn [bind] in Es.
    rewrite scan_cons in Es. unfold line_elements in Es.
    destruct (item_line_only _ Hit) as [Hih His]. rewrite Hih, His, Hit in Es.
    destruct (item_sections it) as [rs|]; [|discriminate]. cbn [bind] in Es.
    destruct (scan [] post) as [e3|]; [|discriminate]. cbn [bind] in Es.
    injection Es as <-.
    rewrite build_app.
    destruct (build init e1) as [st1|e] eqn:Eb1; cbn [bind].
    - unfold as_element.
      destruct (step_header_fresh st1 h (version hr) (date hr) (url hr))
        as (st2 & Est & Hfresh).
      rewrite build_cons, Est. cbn [bind app].
      apply build_item_first; [exact Hfresh|].
      now apply (scan_items_only mid).
    - f_equal. now apply build_error in Eb1. }
  rewrite Hb. simpl. split; [eauto|]. split; [reflexivity|intros ? [=]].
Qed.

Lemma item_before_section_raises_witness :
  parseMarkdown changelog_orphan_item = Err (TypeError_undefined "items").
Proof.
  destruct (scan [] (lines_of changelog_orphan_item)) as [elements|] eqn:Es;
    [|vm_compute in Es; discriminate].
  refine (proj1 (proj2 (item_before_section_raises changelog_orphan_item
                          [] (lit "# 1.0.0 (2024-01-05)") [lit ""]
                          (lit "* early") [lit "### Features"] _ _ _ _))
            elements Es).
  - reflexivity.
  - reflexivity.
  - repeat constructor.
  - reflexivity.
Defined.

(* ================================================================= *)
(** ** Sections without a header *)

Lemma scan_no_header (pre : list str) :
  Forall (fun l => is_header_line l = false) pre -> items_split pre ->
  exists elements, scan [] pre = Ok elements /\ Forall no_Header elements.
Proof.
  unfold items_split.
  induction pre as [|line pre IH]; intros Hh Hi.
  - exists []. split; [reflexivity|constructor].
  - inversion Hh as [|? ? Hh1 Hh2]; inversion Hi as [|? ? Hi1 Hi2]; subst.
    destruct (IH Hh2 Hi2) as (more & Em & Hm).
    rewrite scan_cons, Em. unfold line_elements. rewrite Hh1.
    destruct (is_section_line line).
    + eexists. split; [reflexivity|]. now constructor.
    + destruct (is_item_line line).
      * destruct (Hi1 eq_refl) as [rs ->].
        eexists. split; [reflexivity|]. now constructor.
      * eexists. split; [reflexivity|]. exact Hm.
Qed.

Lemma scan_guarded_head (pre : list str) (elements : list Element) :
  guarded pre = true -> Forall (fun l => is_header_line l = false) pre ->
  scan [] pre = Ok elements ->
  elements = [] \/ exists raw t l, elements = Section raw t :: l.
Proof.
  revert elements; induction pre as [|line pre IH]; intros elements Hg Hh.
  - intros [= <-]. now left.
  - inversion Hh as [|? ? Hh1 Hh2]; subst.
    rewrite scan_cons. unfold line_elements. rewrite Hh1. simpl in Hg.
    destruct (is_section_line line).
    + cbn [bind]. destruct (scan [] pre) as [more|]; [|discriminate].
      intros [= <-]. right. simpl. eauto.
    + destruct (is_item_line line); [discriminate|]. cbn [bind].
      destruct (scan [] pre) as [more|] eqn:E; [|discriminate].
      intros [= <-]. now apply IH.
Qed.

Lemma update_nonempty {A : Type} (l : list A) (i : nat) (f : A -> A) :
  l <> [] -> update l i f <> [].
Proof. destruct l, i; simpl; congruence. Qed.

(** Without a header element the loop stays on the object it starts with,
    and pushes nothing to [versions]. *)
Lemma build_on_placeholder (elements : list Element) (v : Version) :
  Forall no_Header elements ->
  sections v <> [] \/ elements = [] \/
    (exists raw t l, elements = Section raw t :: l) ->
  exists v',
    build {| heap := [v]; versions := []; currentVersion := 0 |} elements =
    Ok {| heap := [v']; versions := []; currentVersion := 0 |}.
Proof.
  intros Hno; revert v.
  induction Hno as [|element elements Hn _ IH]; intros v Hv.
  - now exists v.
  - rewrite build_cons.
    destruct element as [raw ve d u|raw t|raw rs]; [contradiction| |].
    + simpl. apply IH. left. simpl. now destruct (sections v).
    + destruct Hv as [Hv|[Hv|(? & ? & ? & Hv)]]; try discriminate.
      simpl. destruct (nth_error_last_some _ Hv) as [x ->]. simpl.
      apply IH. left. simpl. now apply update_nonempty.
Qed.

(** The object at index 0 of the heap is out of reach once [currentVersion]
    has left it. *)
Lemma build_ignores_first (elements : list Element) (v1 v2 : Version)
  (h : list Version) (vs : list nat) (c : nat) :
  Forall (fun r => r <> 0) vs ->
  (st <- build {| heap := v1 :: h; versions := vs; currentVersion := S c |}
           elements ;; Ok (deref st)) =
  (st <- build {| heap := v2 :: h; versions := vs; currentVersion := S c |}
           elements ;; Ok (deref st)).
Proof.
  revert h vs c.
  induction elements as [|element elements IH]; intros h vs c Hvs.
  - simpl. f_equal. unfold deref; simpl. apply map_ext_in. intros r Hr.
    rewrite Forall_forall in Hvs. specialize (Hvs r Hr). now destruct r.
  - rewrite !build_cons.
    destruct element as [raw ve d u|raw t|raw rs]; simpl.
    + apply IH. apply Forall_app. split; [exact Hvs|]. now repeat constructor.
    + now apply IH.
    + destruct (nth_error _ _); [|reflexivity]. simpl. now apply IH.
Qed.

(** What comes before the first header line does not reach the result. *)
Lemma build_drops_prefix (early later : list Element) :
  Forall no_Header early ->
  early = [] \/ (exists raw t l, early = Section raw t :: l) ->
  later = [] \/ (exists raw v d u l, later = Header raw v d u :: l) ->
  (st <- build init (early ++ later) ;; Ok (deref st)) =
  (st <- build init later ;; Ok (deref st)).
Proof.
  intros Hno Hhead Hlater. rewrite build_app. unfold init.
  destruct (build_on_placeholder early placeholder Hno (or_intror Hhead))
    as [v' ->].
  cbn [bind]. destruct Hlater as [->|(raw & v & d & u & l & ->)].
  - reflexivity.
  - rewrite !build_cons. simpl.
    now apply build_ignores_first; repeat constructor.
Qed.

(** C1, as stated, fails: the first line of the changelog is a section line
    with no header line before it, and the parse raises no error: it returns
    the one record of the header line, with no section. *)
Lemma orphan_section_no_error :
  parseMarkdown changelog_orphan_section =
  Ok [ {| header := {| version := lit "1.0.0"; date := lit "2024-01-05";
                       url := None |};
          sections := [] |} ] /\
  ~ raises_on_orphan_section changelog_orphan_section.
Proof.
  split; [vm_compute; reflexivity|].
  intros H. destruct H as [e He].
  - exists [], (lit "### Features"),
      [lit "* early"; lit "# 1.0.0 (2024-01-05)"].
    repeat split; constructor.
  - vm_compute in He. discriminate.
Qed.

(** C1, amended: the sections that come before the first header line, and
    the items under them, raise no error and are left out of the result.
    When the lines before the first header line have no item line ahead of
    their first section line, and their item lines split into runs, the parse
    returns what it returns for the lines from the first header line on (the
    empty list when there is no header line). *)
Theorem headerless_prefix_dropped (markdown : str) (pre rest : list str) :
  lines_of markdown = pre ++ rest ->
  Forall (fun l => is_header_line l = false) pre ->
  guarded pre = true ->
  items_split pre ->
  rest = [] \/ (exists h rest', rest = h :: rest' /\ is_header_line h = true) ->
  parseMarkdown markdown = parse_lines rest.
Proof.
  intros Hl Hh Hg Hi Hrest. unfold parseMarkdown. fold (lines_of markdown).
  rewrite Hl. unfold parse_lines. rewrite scan_app.
  destruct (scan_no_header pre Hh Hi) as (early & Ee & Hno). rewrite Ee.
  cbn [bind].
  destruct (scan [] rest) as [later|e] eqn:El; cbn [bind]; [|reflexivity].
  apply build_drops_prefix.
  - exact Hno.
  - now apply (scan_guarded_head pre).
  - destruct Hrest as [->|(h & rest' & -> & Hhl)].
    + injection El as <-. now left.
    + right. rewrite scan_cons in El. unfold line_elements in El.
      rewrite Hhl in El.
      destruct (header_of h) as [eh|] eqn:Eh; [|discriminate]. cbn [bind] in El.
      destruct (header_of_raw _ _ Eh) as [hr ->].
      destruct (scan [] rest') as [more|]; [|discriminate]. injection El as <-.
      unfold as_element. simpl. eauto 6.
Qed.

Lemma headerless_prefix_dropped_witness :
  parseMarkdown changelog_orphan_section =
  parse_lines [lit "# 1.0.0 (2024-01-05)"]
  /\ parseMarkdown changelog_no_header = parse_lines [].
Proof.
  split.
  - apply (headerless_prefix_dropped changelog_orphan_section
             [lit "### Features"; lit "* early"] [lit "# 1.0.0 (2024-01-05)"]).
    + reflexivity.
    + repeat constructor.
    + reflexivity.
    + repeat constructor; intros _; eexists; vm_compute; reflexivity.
    + right. eexists _, _. split; reflexivity.
  - apply (headerless_prefix_dropped changelog_no_header
             [lit "Changelog"; lit "### Notes"; lit "* nothing yet"] []).
    + reflexivity.
    + repeat constructor.
    + reflexivity.
    + repeat constructor; intros _; eexists; vm_compute; reflexivity.
    + now left.
Defined.

(* ================================================================= *)
(** ** The patterns of the header lines *)

Lemma all_digits_4 (s : str) :
  length s = 4 -> Forall (fun c => is_digit c = true) s ->
  exists a b c d, s = [a; b; c; d] /\ is_digit a = true /\ is_digit b = true /\
                  is_digit c = true /\ is_digit d = true.
Proof.
  destruct s as [|a [|b [|c [|d [|? ?]]]]]; try discriminate. intros _ H.
  apply Forall_cons_iff in H as [Ha H]. apply Forall_cons_iff in H as [Hb H].
  apply Forall_cons_iff in H as [Hc H]. apply Forall_cons_iff in H as [Hd _].
  now exists a, b, c, d.
Qed.

Lemma all_digits_2 (s : str) :
  length s = 2 -> Forall (fun c => is_digit c = true) s ->
  exists a b, s = [a; b] /\ is_digit a = true /\ is_digit b = true.
Proof.
  destruct s as [|a [|b [|? ?]]]; try discriminate. intros _ H.
  apply Forall_cons_iff in H as [Ha H]. apply Forall_cons_iff in H as [Hb _].
  now exists a, b.
Qed.

(** The matches of [/\d{4}-\d{2}-\d{2}/] are the texts of the shape
    [YYYY-MM-DD]. *)
Lemma date_matches (segs : list str) :
  matches (body re_date) segs -> date_shape (concat segs) = true.
Proof.
  intros Hm. simpl in Hm.
  apply matches_cons_inv in Hm as (y & ? & -> & [Hyl Hy] & Hm).
  apply matches_cons_inv in Hm as (h1 & ? & -> & (c1 & -> & H1) & Hm).
  apply matches_cons_inv in Hm as (m & ? & -> & [Hml Hmd] & Hm).
  apply matches_cons_inv in Hm as (h2 & ? & -> & (c2 & -> & H2) & Hm).
  apply matches_cons_inv in Hm as (d & ? & -> & [Hdl Hd] & Hm).
  apply matches_nil_inv in Hm as ->.
  apply cls_match_Lit in H1, H2; subst.
  destruct (all_digits_4 _ Hyl Hy) as (y1 & y2 & y3 & y4 & -> & ? & ? & ? & ?).
  destruct (all_digits_2 _ Hml Hmd) as (m1 & m2 & -> & ? & ?).
  destruct (all_digits_2 _ Hdl Hd) as (d1 & d2 & -> & ? & ?).
  simpl.
  repeat match goal with
         | H : is_digit _ = true |- _ => rewrite H; clear H
         end.
  reflexivity.
Qed.

Lemma find_date_none (line : str) :
  ~ has_date line -> match_ line re_date = None.
Proof.
  intros Hno. unfold match_, find. simpl anchored.
  rewrite search_none; [reflexivity|].
  intros pre s' ->. destruct (exec (body re_date) s') as [[segs rest]|] eqn:E;
    [|reflexivity].
  apply exec_sound in E as [Hm ->]. exfalso. apply Hno.
  exists pre, (concat segs), rest. split; [reflexivity|now apply date_matches].
Qed.

Lemma find_paren_none (line : str) :
  ~ has_paren line -> match_ line re_paren = None.
Proof.
  intros Hno. unfold match_, find. simpl anchored.
  rewrite search_none; [reflexivity|].
  intros pre s' ->. destruct (exec (body re_paren) s') as [[segs rest]|] eqn:E;
    [|reflexivity].
  apply exec_sound in E as [Hm ->]. exfalso. apply Hno. simpl in Hm.
  apply matches_cons_inv in Hm as (o & ? & -> & (c1 & -> & H1) & Hm).
  apply matches_cons_inv in Hm as (? & ? & -> & -> & Hm).
  apply matches_cons_inv in Hm as (g & ? & -> & _ & Hm).
  apply matches_cons_inv in Hm as (? & ? & -> & -> & Hm).
  apply matches_cons_inv in Hm as (? & ? & -> & (c2 & -> & H2) & Hm).
  apply matches_nil_inv in Hm as ->.
  apply cls_match_Lit in H1, H2; subst.
  exists pre, g, rest. simpl. now rewrite <- app_assoc.
Qed.

Lemma find_token_none (line : str) :
  ~ In " "%char (skipn 2 line) -> match_ line re_version_token = None.
Proof.
  intros Hno. unfold match_, find. simpl anchored.
  rewrite search_none; [reflexivity|].
  intros pre s' ->.
  destruct (exec (body re_version_token) s') as [[segs rest]|] eqn:E;
    [|reflexivity].
  apply exec_sound in E as [Hm ->]. exfalso. apply Hno. simpl in Hm.
  apply matches_cons_inv in Hm as (? & ? & -> & (c1 & -> & H1) & Hm).
  apply matches_cons_inv in Hm as (? & ? & -> & (c2 & -> & H2) & Hm).
  apply matches_cons_inv in Hm as (? & ? & -> & -> & Hm).
  apply matches_cons_inv in Hm as (g & ? & -> & _ & Hm).
  apply matches_cons_inv in Hm as (? & ? & -> & -> & Hm).
  apply matches_cons_inv in Hm as (? & ? & -> & (c3 & -> & H3) & Hm).
  apply matches_nil_inv in Hm as ->.
  apply cls_match_Lit in H1, H2, H3; subst. simpl.
  destruct pre as [|a [|b pre]]; simpl.
  - rewrite !in_app_iff. left. right. now left.
  - now left.
  - rewrite !in_app_iff. right. do 2 right.
    rewrite !in_app_iff. left. right. now left.
Qed.

Lemma scan_error_in (line : str) (lines : list str) (e : exn) :
  In line lines -> line_elements line = Err e ->
  exists e', scan [] lines = Err e'.
Proof.
  induction lines as [|l lines IH]; intros Hin He; [contradiction|].
  rewrite scan_cons. destruct Hin as [->|Hin].
  - rewrite He. simpl. eauto.
  - destruct (line_elements l); simpl; [|eauto].
    destruct (IH Hin He) as [e' ->]. simpl. eauto.
Qed.

Lemma broken_header_null (line : str) :
  broken_header line -> exists prop, header_of line = Err (TypeError_null prop).
Proof.
  unfold header_of, bracket_header, bare_header.
  intros [[Hb Hmiss]|[Hb Hmiss]].
  - rewrite Hb.
    destruct (match_ line re_version_bracket); simpl; [|eauto].
    destruct Hmiss as [Hd|Hp].
    + rewrite (find_date_none _ Hd). simpl. eauto.
    + destruct (match_ line re_date); simpl; [|eauto].
      rewrite (find_paren_none _ Hp). simpl. eauto.
  - destruct (bare_excludes _ Hb) as (-> & _).
    rewrite (find_token_none _ Hmiss). simpl. eauto.
Qed.

(** C10: [parseMarkdown] is not total.  A line that begins with [# [] or
    [## [] and has no YYYY-MM-DD substring or no parenthesised segment, and a
    bare numeric header line with no space after its [# ], makes the first
    loop read an index of the [null] result of [match]; the [TypeError]
    ends the parse of every document that has such a line. *)
Theorem parse_broken_header_throws (line : str) :
  broken_header line ->
  (forall elements,
      exists prop, scan_line elements line = Err (TypeError_null prop)) /\
  (forall markdown,
      In line (lines_of markdown) -> exists e, parseMarkdown markdown = Err e).
Proof.
  intros Hbroken.
  assert (Hh : is_header_line line = true).
  { unfold is_header_line. destruct Hbroken as [[-> _]|[-> _]];
      [reflexivity|apply orb_true_r]. }
  destruct (broken_header_null _ Hbroken) as [prop Hnull].
  assert (Hline : line_elements line = Err (TypeError_null prop)).
  { unfold line_elements. now rewrite Hh, Hnull. }
  split.
  - intros elements. exists prop. now rewrite scan_line_eq, Hline.
  - intros markdown Hin. unfold parseMarkdown, parse_lines.
    fold (lines_of markdown).
    destruct (scan_error_in _ _ _ Hin Hline) as [e' ->]. simpl. eauto.
Qed.

Lemma date_shape_length (d : str) : date_shape d = true -> length d = 10.
Proof.
  destruct d as [|? [|? [|? [|? [|? [|? [|? [|? [|? [|? [|? ?]]]]]]]]]]];
    simpl; intros H; (discriminate || reflexivity).
Qed.

Lemma parse_broken_header_throws_witness :
  (exists prop, scan_line [] bare_line_no_space = Err (TypeError_null prop)) /\
  (exists e, parseMarkdown (lit "# [1.0]") = Err e).
Proof.
  split.
  - apply (parse_broken_header_throws bare_line_no_space).
    right. split; [reflexivity|]. simpl. intuition discriminate.
  - apply (parse_broken_header_throws (lit "# [1.0]")).
    + left. split; [reflexivity|]. left.
      intros (a & d & b & Hl & Hd).
      apply date_shape_length in Hd. apply (f_equal (@length ascii)) in Hl.
      rewrite !length_app, Hd in Hl. simpl in Hl. lia.
    + now left.
Defined.

Lemma search_here (r : list atom) (s : str) (m : found) :
  exec r s = Some m -> search r s = Some m.
Proof. intros H. destruct s; simpl; now rewrite H. Qed.

(** [/# (.*?) /] on a line that begins with [# ]: the group is what stands
    before the next space. *)
Lemma exec_token (v rest : str) :
  Forall (fun c => c <> " "%char /\ is_line_terminator c = false) v ->
  exec (body re_version_token) (lit "# " ++ v ++ lit " " ++ rest) =
  Some ([lit "#"; lit " "; []; v; []; lit " "], rest).
Proof.
  intros Hv.
  cbn [body re_version_token chars map exec app lit list_ascii_of_string
       times cls_match].
  rewrite !Ascii.eqb_refl. cbn [cons_seg skip_seg].
  erewrite lazy_first; [reflexivity| | |].
  - eapply Forall_impl; [|exact Hv]. intros c [_ Hc]. simpl. now rewrite Hc.
  - intros a c b ->. apply Forall_elt in Hv as [Hc _].
    cbn [app]. apply not_eq_sym in Hc. apply Ascii.eqb_neq in Hc.
    now rewrite Hc.
  - cbn. reflexivity.
Qed.

Lemma find_token (line v : str) :
  version_token line v ->
  index (match_ line re_version_token) 1 "1" = Ok v.
Proof.
  intros [[rest ->] Hv]. unfold match_, find. simpl anchored.
  rewrite (search_here _ _ _ (exec_token v rest Hv)). reflexivity.
Qed.

(** [/\d{4}-\d{2}-\d{2}/] at the start of a date. *)
Lemma exec_date (d b : str) :
  date_shape d = true ->
  exists segs, exec (body re_date) (d ++ b) = Some (segs, b) /\
               concat segs = d /\ groups (body re_date) segs None = [].
Proof.
  destruct d
    as [|y1 [|y2 [|y3 [|y4 [|h1 [|m1 [|m2 [|h2 [|d1 [|d2 [|? ?]]]]]]]]]]];
    simpl; try discriminate.
  intros H. do 9 (apply andb_true_iff in H as [H ?]).
  repeat match goal with
         | E : Ascii.eqb _ _ = true |- _ => apply Ascii.eqb_eq in E; subst
         end.
  repeat match goal with
         | E : is_digit _ = true |- _ => rewrite E
         end.
  simpl. eexists. split; [reflexivity|]. split; reflexivity.
Qed.

Lemma find_date (line d : str) :
  first_date line d -> index (match_ line re_date) 0 "0" = Ok d.
Proof.
  intros (a & b & -> & Hd & Hmin). unfold match_, find. simpl anchored.
  destruct (exec_date d b Hd) as (segs & He & Hc & Hg).
  rewrite (search_first _ a (d ++ b) (segs, b)); [|clear He|exact He].
  - rewrite Hg, Hc. reflexivity.
  - intros a1 c a2 ->.
    destruct (exec (body re_date) (c :: a2 ++ d ++ b))
      as [[segs' rest']|] eqn:E;
      [|reflexivity].
    apply exec_sound in E as [Hm E]. apply date_matches in Hm.
    specialize (Hmin a1 (concat segs') rest').
    rewrite <- E, <- app_assoc in Hmin. specialize (Hmin eq_refl Hm).
    rewrite length_app in Hmin. simpl in Hmin. lia.
Qed.

(** [/^# \d+.\d+.\d+/] accepts every line of the bare shape whose two
    separators are not line terminators. *)
Lemma bare_shape_accepted (line : str) (c1 c2 : ascii) :
  bare_shape line c1 c2 ->
  is_line_terminator c1 = false -> is_line_terminator c2 = false ->
  is_bare_header line = true.
Proof.
  intros (d1 & d2 & d3 & tail & -> & H1 & H2 & H3) Hc1 Hc2.
  unfold is_bare_header, match_, find. simpl anchored.
  assert (Hm : matches (body re_bare_header)
                 [lit "#"; lit " "; d1; [c1]; d2; [c2]; d3]).
  { repeat constructor; simpl; try (apply H1 || apply H2 || apply H3);
      try (eexists; split; [reflexivity|]; simpl);
      try reflexivity; now (rewrite Hc1 || rewrite Hc2). }
  apply (exec_complete _ _ tail) in Hm.
  replace (lit "# " ++ d1 ++ c1 :: d2 ++ c2 :: d3 ++ tail)
    with (concat [lit "#"; lit " "; d1; [c1]; d2; [c2]; d3] ++ tail).
  - destruct (exec (body re_bare_header) _) as [[? ?]|];
      [reflexivity|contradiction].
  - simpl. rewrite app_nil_r, <- !app_assoc. simpl.
    now rewrite <- !app_assoc.
Qed.

Lemma first_date_by_search (line a d b : str) :
  line = a ++ d ++ b -> date_shape d = true ->
  forallb (fun k => negb (date_shape (firstn 10 (skipn k line))))
    (seq 0 (length a)) = true ->
  first_date line d.
Proof.
  intros Hl Hd Hall. exists a, b. repeat split; [exact Hl|exact Hd|].
  intros a' d' b' Hl' Hd'.
  destruct (le_lt_dec (length a) (length a')) as [|Hlt]; [assumption|exfalso].
  rewrite forallb_forall in Hall.
  specialize (Hall (length a')). rewrite in_seq in Hall.
  specialize (Hall ltac:(lia)). apply negb_true_iff in Hall.
  rewrite Hl', skipn_app, skipn_all, Nat.sub_diag in Hall.
  change (skipn 0 (d' ++ b')) with (d' ++ b') in Hall.
  rewrite app_nil_l in Hall.
  rewrite <- (date_shape_length _ Hd'), firstn_app, firstn_all, Nat.sub_diag
    in Hall.
  rewrite firstn_O, app_nil_r in Hall. congruence.
Qed.

(* ================================================================= *)
(** ** Bare numeric header lines *)

(** C8, as stated, fails.  The line [# 1.2.3] is of the bare shape, and the
    parse of it returns no record: it has no space after the version and no
    date.  The line [# 1], carriage return, [2.3 (2024-01-05)] is of the bare
    shape with a carriage return for its first separator, and is not taken
    for a header line: [.] does not match a line terminator. *)
Lemma bare_shape_not_always_recorded :
  (bare_shape bare_line_no_space "." "." /\
   parse_lines [bare_line_no_space] = Err (TypeError_null "1") /\
   ~ bare_header_recorded bare_line_no_space) /\
  (bare_shape bare_line_cr CR "." /\
   is_bare_header bare_line_cr = false /\
   ~ bare_header_recorded bare_line_cr).
Proof.
  split; split.
  - exists (lit "1"), (lit "2"), (lit "3"), [].
    repeat split; try discriminate; repeat constructor.
  - split; [vm_compute; reflexivity|].
    intros (v & d & H). vm_compute in H. discriminate.
  - exists (lit "1"), (lit "2"), (lit "3"), (lit " (2024-01-05)").
    repeat split; try discriminate; repeat constructor.
  - split; [vm_compute; reflexivity|].
    intros (v & d & H). vm_compute in H. discriminate.
Qed.

(** C8, amended: a line that is [# ], digits, a character, digits, a
    character, digits, where the two characters are anything but line
    terminators, is taken for a bare numeric header, whatever the two
    characters are.  When the line has a space after the [# ] that begins it,
    with no line terminator before that space, and has a YYYY-MM-DD substring,
    the element of the line has for version the token between [# ] and the
    next space, for date the first YYYY-MM-DD substring, and no url, and the
    line gives one version record with them. *)
Theorem bare_header_line (line v d : str) (c1 c2 : ascii) :
  bare_shape line c1 c2 ->
  is_line_terminator c1 = false -> is_line_terminator c2 = false ->
  version_token line v ->
  first_date line d ->
  is_bare_header line = true /\
  (forall elements,
      scan_line elements line = Ok (elements ++ [Header line v d None])) /\
  parse_lines [line] =
  Ok [ {| header := {| version := v; date := d; url := None |};
          sections := [] |} ].
Proof.
  intros Hshape Hc1 Hc2 Hv Hd.
  pose proof (bare_shape_accepted line c1 c2 Hshape Hc1 Hc2) as Hbare.
  assert (Hscan : forall elements,
             scan_line elements line = Ok (elements ++ [Header line v d None])).
  { intros elements. rewrite scan_line_eq.
    unfold line_elements, is_header_line, header_of.
    destruct (bare_excludes _ Hbare) as (-> & _). rewrite Hbare. simpl.
    unfold bare_header. now rewrite (find_token _ _ Hv), (find_date _ _ Hd). }
  split; [exact Hbare|]. split; [exact Hscan|].
  unfold parse_lines. simpl scan. rewrite Hscan. reflexivity.
Qed.

Lemma bare_header_line_witness :
  is_bare_header (lit "# 1a2b3 (2024-01-05)") = true /\
  parse_lines [lit "# 1a2b3 (2024-01-05)"] =
  Ok [ {| header := {| version := lit "1a2b3"; date := lit "2024-01-05";
                       url := None |};
          sections := [] |} ].
Proof.
  assert (H : bare_shape (lit "# 1a2b3 (2024-01-05)") "a" "b" /\
              version_token (lit "# 1a2b3 (2024-01-05)") (lit "1a2b3") /\
              first_date (lit "# 1a2b3 (2024-01-05)") (lit "2024-01-05")).
  { split; [|split].
    - exists (lit "1"), (lit "2"), (lit "3"), (lit " (2024-01-05)").
      repeat split; try discriminate; repeat constructor.
    - split; [exists (lit "(2024-01-05)"); reflexivity|].
      repeat constructor; discriminate.
    - apply (first_date_by_search _ (lit "# 1a2b3 (") _ (lit ")"));
        reflexivity. }
  destruct H as (Hs & Hv & Hd).
  destruct (bare_header_line (lit "# 1a2b3 (2024-01-05)") (lit "1a2b3")
              (lit "2024-01-05") "a" "b" Hs eq_refl eq_refl Hv Hd)
    as (Hb & _ & Hp).
  split; [exact Hb|exact Hp].
Defined.

(* ================================================================= *)
(** ** The runs of an item *)

(** C3, on the code: on an item line with the same link twice,
    [itemCpy.split(link)] cuts at both occurrences and [after] is only the
    text between them.  The runs stop there: what follows the second link is
    in no run, and the text of the last run is [undefined]; the runs do not
    account for the normalised line. *)
Theorem repeated_link_loses_text :
  normalize item_repeated_link =
  lit "fix ([#12](http://x/12)) and ([#12](http://x/12)) too" /\
  item_sections item_repeated_link =
  Ok [ Text (Some (lit "fix ("));
       Link (lit "[#12](http://x/12)") (lit "http://x/12") (lit "#12");
       Text (Some (lit ") and ("));
       Link (lit "[#12](http://x/12)") (lit "http://x/12") (lit "#12");
       Text None ] /\
  (forall rs, item_sections item_repeated_link = Ok rs ->
              ~ runs_cover rs (normalize item_repeated_link)).
Proof.
  split; [vm_compute; reflexivity|]. split; [vm_compute; reflexivity|].
  intros rs H. vm_compute in H. injection H as <-.
  intros (parts & Hp & _).
  destruct parts as [|p1 [|p2 [|p3 [|p4 [|p5 parts]]]]]; discriminate.
Qed.

(** *** When no link recurs, the runs account for the line *)

Lemma split_from_skip (sep x y cur : str) :
  split_from sep (x ++ y) (length x) cur = split_from sep y 0 cur.
Proof. induction x as [|c x IH]; simpl; [reflexivity|exact IH]. Qed.

Lemma split_from_none (sep s cur : str) :
  (forall a c b, s = a ++ c :: b -> startsWith (c :: b) sep = false) ->
  split_from sep s 0 cur = [rev cur ++ s].
Proof.
  revert cur; induction s as [|c s IH]; intros cur Hno.
  - simpl. now rewrite app_nil_r.
  - cbn [split_from]. rewrite (Hno [] c s eq_refl), IH.
    + simpl. now rewrite <- app_assoc.
    + intros a c' b ->. exact (Hno (c :: a) c' b eq_refl).
Qed.

Lemma split_from_first (sep before after cur : str) :
  sep <> [] ->
  (forall a c b, before = a ++ c :: b ->
                 startsWith (c :: b ++ sep ++ after) sep = false) ->
  split_from sep (before ++ sep ++ after) 0 cur =
  (rev cur ++ before) :: split_from sep after 0 [].
Proof.
  intros Hsep. revert cur; induction before as [|c before IH]; intros cur Hno.
  - destruct sep as [|c sep]; [contradiction|].
    rewrite app_nil_l, app_nil_r.
    change ((c :: sep) ++ after) with (c :: sep ++ after).
    cbn [split_from].
    change (c :: sep ++ after) with ((c :: sep) ++ after).
    rewrite startsWith_app. f_equal.
    replace (length (c :: sep) - 1) with (length sep) by (simpl; lia).
    apply split_from_skip.
  - rewrite <- app_comm_cons. cbn [split_from].
    rewrite (Hno [] c before eq_refl), IH.
    + simpl. now rewrite <- app_assoc.
    + intros a c' b ->. exact (Hno (c :: a) c' b eq_refl).
Qed.

(** A separator that occurs once splits the string in two. *)
Lemma split_once (l before after : str) :
  l <> [] -> occurs_once l (before ++ l ++ after) ->
  split (before ++ l ++ after) l = [before; after].
Proof.
  intros Hl Honce. unfold split.
  destruct l as [|c0 l0] eqn:El; [contradiction|].
  rewrite <- El in *.
  rewrite split_from_first, split_from_none; [reflexivity| |exact Hl|].
  - intros a c b -> . destruct (startsWith (c :: b) l) eqn:E; [|reflexivity].
    apply startsWith_inv in E as [t E]. exfalso.
    assert (H : before ++ l ++ a = before).
    { apply (Honce (before ++ l ++ a) t before (a ++ c :: b)).
      - rewrite E, <- !app_assoc. reflexivity.
      - reflexivity. }
    apply (f_equal (@length ascii)) in H. rewrite !length_app in H.
    destruct l; [contradiction|simpl in H; lia].
  - intros a c b ->.
    destruct (startsWith (c :: b ++ l ++ after) l) eqn:E; [|reflexivity].
    apply startsWith_inv in E as [t E]. exfalso.
    assert (H : a = a ++ c :: b).
    { apply (Honce a t (a ++ c :: b) after).
      - rewrite <- app_assoc, <- app_comm_cons, E. reflexivity.
      - rewrite <- app_assoc. reflexivity. }
    apply (f_equal (@length ascii)) in H. rewrite length_app in H.
    simpl in H. lia.
Qed.

Lemma occurs_once_suffix (l p s : str) :
  occurs_once l (p ++ s) -> occurs_once l s.
Proof.
  intros H a b a' b' E E'.
  apply (app_inv_head p), (H (p ++ a) b (p ++ a') b');
    rewrite <- app_assoc; congruence.
Qed.

Lemma all_from_skip (r : list atom) (x y : str) :
  all_from r (x ++ y) (length x) = all_from r y 0.
Proof. induction x as [|c x IH]; [reflexivity|exact IH]. Qed.

(** The first of the matches of a pattern that matches no empty text. *)
Lemma all_from_first (r : list atom) (s : str) :
  (forall segs, matches r segs -> concat segs <> []) ->
  all_from r s 0 = [] \/
  exists before l after,
    s = before ++ l ++ after /\ l <> [] /\
    (exists segs, matches r segs /\ concat segs = l) /\
    all_from r s 0 = l :: all_from r after 0.
Proof.
  intros Hne. induction s as [|c s IH]; cbn [all_from].
  - destruct (exec r []) as [[segs rest]|] eqn:E; [|now left].
    apply exec_sound in E as [Hm E]. apply Hne in Hm.
    symmetry in E. apply app_eq_nil in E as [E _]. contradiction.
  - destruct (exec r (c :: s)) as [[segs rest]|] eqn:E.
    + right. apply exec_sound in E as [Hm E].
      pose proof (Hne _ Hm) as Hl.
      exists [], (concat segs), rest. split; [exact E|]. split; [exact Hl|].
      split; [now exists segs|]. f_equal.
      destruct (concat segs) as [|c' l']; [contradiction|].
      injection E as -> ->.
      replace (length (c' :: l') - 1) with (length l') by (simpl; lia).
      apply all_from_skip.
    + destruct IH as [->|(before & l & after & -> & Hl & Hm & ->)];
        [now left|right].
      exists (c :: before), l, after. repeat split; assumption.
Qed.

Lemma search_complete (r : list atom) (pre : str) (segs : list str)
  (rest : str) :
  matches r segs -> search r (pre ++ concat segs ++ rest) <> None.
Proof.
  intros Hm. induction pre as [|c pre IH].
  - apply (exec_complete _ _ rest) in Hm. simpl.
    destruct (concat segs ++ rest); simpl;
      destruct (exec r _); (discriminate || contradiction).
  - simpl. destruct (exec r (c :: pre ++ concat segs ++ rest));
      [discriminate|exact IH].
Qed.

Lemma index_found (s : str) (re : regex) (i : nat) (prop : string) :
  find re s <> None -> exists x, index (match_ s re) i prop = Ok x.
Proof.
  unfold match_. destruct (find re s) as [[segs rest]|]; [|contradiction].
  intros _. simpl. eauto.
Qed.

(** A match of the link pattern is [[text](url)]: the two patterns that take
    it apart match it, and it is not empty. *)
Lemma link_match (segs : list str) :
  matches re_link segs ->
  concat segs <> [] /\
  (exists url, index (match_ (concat segs) re_paren) 1 "1" = Ok url) /\
  (exists text, index (match_ (concat segs) re_bracket) 1 "1" = Ok text).
Proof.
  intros Hm. unfold re_link in Hm. simpl in Hm.
  apply matches_cons_inv in Hm as (? & ? & -> & (c1 & -> & Hq1) & Hm).
  apply matches_cons_inv in Hm as (? & ? & -> & ? & Hm).
  apply matches_cons_inv in Hm as (t & ? & -> & Ht & Hm).
  apply matches_cons_inv in Hm as (? & ? & -> & ? & Hm).
  apply matches_cons_inv in Hm as (? & ? & -> & (c2 & -> & Hq2) & Hm).
  apply matches_cons_inv in Hm as (? & ? & -> & (c3 & -> & Hq3) & Hm).
  apply matches_cons_inv in Hm as (? & ? & -> & ? & Hm).
  apply matches_cons_inv in Hm as (u & ? & -> & Hu & Hm).
  apply matches_cons_inv in Hm as (? & ? & -> & ? & Hm).
  apply matches_cons_inv in Hm as (? & ? & -> & (c4 & -> & Hq4) & Hm).
  apply matches_nil_inv in Hm as ->.
  apply cls_match_Lit in Hq1, Hq2, Hq3, Hq4. cbn [atom_ok] in *. subst.
  split; [discriminate|]. split; apply index_found; unfold find; simpl anchored.
  - replace (concat _)
      with ((lit "[" ++ t ++ lit "]")
            ++ concat [lit "("; []; u; []; lit ")"] ++ []).
    + apply search_complete. repeat constructor; simpl; eauto.
    + simpl. rewrite ?app_nil_r, <- ?app_assoc. reflexivity.
  - replace (concat _)
      with ([] ++ concat [lit "["; []; t; []; lit "]"]
               ++ (lit "(" ++ u ++ lit ")")).
    + apply search_complete. repeat constructor; simpl; eauto.
    + simpl. rewrite ?app_nil_r, <- ?app_assoc. reflexivity.
Qed.

Lemma nullish_match_g (s : str) (r : list atom) :
  nullish (match_g s r) [] = all_from r s 0.
Proof. unfold match_g. now destruct (all_from r s 0). Qed.

Lemma link_loop_cover (n : nat) (s : str) (acc : list Run) :
  length s <= n ->
  (forall l, In l (all_from re_link s 0) -> occurs_once l s) ->
  exists rs tail parts,
    link_loop (all_from re_link s 0) (Some s) acc = Ok (Some tail, acc ++ rs) /\
    map run_source rs = map Some parts /\ concat parts ++ tail = s.
Proof.
  revert s acc; induction n as [|n IH]; intros s acc Hn Honce.
  - destruct s; [|simpl in Hn; lia].
    exists [], [], []. rewrite app_nil_r. repeat split.
  - destruct (all_from_first re_link s
                (fun segs H => proj1 (link_match segs H)))
      as [E|(before & l & after & -> & Hl & (segs & Hm & <-) & E)].
    + rewrite E. exists [], s, []. rewrite app_nil_r. repeat split.
    + rewrite E in *. cbn [link_loop].
      destruct (link_match segs Hm) as (_ & [url ->] & [text ->]). cbn [bind].
      rewrite (split_once _ _ _ Hl (Honce _ (or_introl eq_refl))).
      cbn [nth_error].
      assert (Hn' : length after <= n).
      { rewrite !length_app in Hn.
        destruct (concat segs); [contradiction|simpl in Hn; lia]. }
      assert (Honce' : forall l', In l' (all_from re_link after 0) ->
                                  occurs_once l' after).
      { intros l' Hin.
        apply (occurs_once_suffix l' (before ++ concat segs)).
        rewrite <- app_assoc. apply Honce. now right. }
      destruct (IH after
                  (acc ++ [Text (Some before); Link (concat segs) url text])
                  Hn' Honce')
        as (rs & tail & parts & Hloop & Hp & Hc).
      exists (Text (Some before) :: Link (concat segs) url text :: rs),
        tail, (before :: concat segs :: parts).
      rewrite <- app_assoc in Hloop. split; [exact Hloop|]. split.
      * simpl. now rewrite Hp.
      * simpl. rewrite <- !app_assoc. now rewrite Hc.
Qed.

(** The runs of an item line account for its normalised line, every
    character in one run, when no link markup found in it occurs twice. *)
Theorem item_runs_cover_unrepeated (line : str) :
  (forall l, In l (all_from re_link (normalize line) 0) ->
             occurs_once l (normalize line)) ->
  exists rs, item_sections line = Ok rs /\ runs_cover rs (normalize line).
Proof.
  intros Honce. unfold item_sections. rewrite nullish_match_g.
  destruct (link_loop_cover (length (normalize line)) (normalize line) []
              (le_n _) Honce) as (rs & tail & parts & -> & Hp & Hc).
  cbn [bind app]. exists (rs ++ [Text (Some tail)]). split; [reflexivity|].
  exists (parts ++ [tail]). rewrite !map_app, Hp, concat_app. simpl.
  now rewrite app_nil_r.
Qed.

(* ================================================================= *)
(** ** The documents on which the parse returns *)

Lemma nth_update_same {A : Type} (l : list A) (i : nat) (f : A -> A) (d : A) :
  i < length l -> nth i (update l i f) d = f (nth i l d).
Proof.
  revert i; induction l as [|x l IH]; intros [|i] Hi; simpl in *;
    try lia; [reflexivity|apply IH; lia].
Qed.

Lemma step_section_ok (st : store) (raw t : str) (sec : bool) :
  current_ok sec st ->
  exists st', step st (Section raw t) = Ok st' /\ current_ok true st'.
Proof.
  intros [Hcur _]. eexists. split; [reflexivity|]. split; simpl.
  - now rewrite update_length.
  - intros _. rewrite nth_update_same by exact Hcur. simpl.
    now destruct (sections _).
Qed.

Lemma step_item_ok (st : store) (raw : str) (rs : list Run) :
  current_ok true st ->
  exists st', step st (Item raw rs) = Ok st' /\ current_ok true st'.
Proof.
  intros [Hcur Hsec]. specialize (Hsec eq_refl). simpl.
  destruct (nth_error_last_some _ Hsec) as [x ->].
  eexists. split; [reflexivity|]. split; simpl.
  - now rewrite update_length.
  - intros _. rewrite nth_update_same by exact Hcur. simpl.
    now apply update_nonempty.
Qed.

Lemma step_header_ok (st : store) (raw v d : str) (u : option str) :
  exists st', step st (Header raw v d u) = Ok st' /\ current_ok false st'.
Proof.
  eexists. split; [reflexivity|]. split; simpl; [|discriminate].
  rewrite length_app. simpl. lia.
Qed.

Lemma parse_lines_returns (lines : list str) (sec : bool) (st : store) :
  headers_split lines -> items_split lines -> placed sec lines = true ->
  current_ok sec st ->
  exists elements st', scan [] lines = Ok elements /\
                       build st elements = Ok st'.
Proof.
  unfold headers_split, items_split.
  revert sec st.
  induction lines as [|line lines IH]; intros sec st Hh Hi Hp Hst.
  - exists [], st. split; reflexivity.
  - apply Forall_cons_iff in Hh as [Hh1 Hh].
    apply Forall_cons_iff in Hi as [Hi1 Hi].
    rewrite scan_cons. unfold line_elements. simpl in Hp.
    destruct (is_header_line line).
    + destruct (Hh1 eq_refl) as [e He]. rewrite He.
      destruct (header_of_raw _ _ He) as [h ->]. unfold as_element in *.
      destruct (step_header_ok st line (version h) (date h) (url h))
        as (st1 & Es & Hst1).
      destruct (IH false st1 Hh Hi Hp Hst1) as (more & st' & -> & Eb).
      eexists _, st'. split; [reflexivity|].
      cbn [app]. now rewrite build_cons, Es.
    + destruct (is_section_line line).
      * destruct (step_section_ok st line
                    (replace line (lit "### ") (lit "")) sec Hst)
          as (st1 & Es & Hst1).
        destruct (IH true st1 Hh Hi Hp Hst1) as (more & st' & -> & Eb).
        eexists _, st'. split; [reflexivity|].
        cbn [app]. now rewrite build_cons, Es.
      * destruct (is_item_line line).
        -- apply andb_true_iff in Hp as [-> Hp].
           destruct (Hi1 eq_refl) as [rs ->].
           destruct (step_item_ok st line rs Hst) as (st1 & Es & Hst1).
           destruct (IH true st1 Hh Hi Hp Hst1) as (more & st' & -> & Eb).
           eexists _, st'. split; [reflexivity|].
           cbn [app]. now rewrite build_cons, Es.
        -- destruct (IH sec st Hh Hi Hp Hst) as (more & st' & -> & Eb).
           now exists more, st'.
Qed.

(** The parse returns when every header line has the parts its pattern
    reads, every item line splits into runs, and every item line has a
    section line before it, after the last header line before it. *)
Theorem parse_returns_on_well_formed (markdown : str) :
  headers_split (lines_of markdown) ->
  items_split (lines_of markdown) ->
  placed false (lines_of markdown) = true ->
  exists vs, parseMarkdown markdown = Ok vs.
Proof.
  intros Hh Hi Hp. unfold parseMarkdown, parse_lines.
  fold (lines_of markdown).
  destruct (parse_lines_returns (lines_of markdown) false init Hh Hi Hp)
    as (elements & st & -> & Eb).
  - split; [simpl; lia|discriminate].
  - cbn [bind]. rewrite Eb. cbn [bind]. eauto.
Qed.

(* ================================================================= *)
(** * More of the code *)

(** ** [split] and [join] *)

Lemma split_from_cons (sep s cur : str) (k : nat) :
  exists p l, split_from sep s k cur = p :: l.
Proof.
  revert k cur; induction s as [|c s IH]; intros k cur; simpl; [eauto|].
  destruct k; [|apply IH].
  destruct (startsWith (c :: s) sep); [eauto|apply IH].
Qed.

Lemma join_cons (x : str) (l : list str) (sep : str) :
  l <> [] -> join (x :: l) sep = x ++ sep ++ join l sep.
Proof. destruct l; [contradiction|reflexivity]. Qed.

Lemma join_split_from (sep : str) (n : nat) (s cur : str) :
  sep <> [] -> length s <= n ->
  join (split_from sep s 0 cur) sep = rev cur ++ s.
Proof.
  intros Hsep. revert s cur; induction n as [|n IH]; intros s cur Hn.
  - destruct s; [|simpl in Hn; lia]. simpl. now rewrite app_nil_r.
  - destruct s as [|c s]; [simpl; now rewrite app_nil_r|].
    cbn [split_from]. destruct (startsWith (c :: s) sep) eqn:E.
    + apply startsWith_inv in E as [t E].
      destruct sep as [|c' sep']; [contradiction|].
      injection E as Ec Es. subst s.
      replace (length (c' :: sep') - 1) with (length sep') by (simpl; lia).
      rewrite split_from_skip.
      destruct (split_from_cons (c' :: sep') t [] 0) as (p & l & Hs).
      rewrite join_cons by (rewrite Hs; discriminate).
      rewrite IH.
      * subst c. reflexivity.
      * simpl in Hn. rewrite length_app in Hn. lia.
    + rewrite IH by (simpl in Hn; lia). simpl. now rewrite <- app_assoc.
Qed.

(** Joining the pieces of a split with the separator gives the string
    back. *)
Lemma join_split (s sep : str) : join (split s sep) sep = s.
Proof.
  unfold split. destruct sep as [|c sep].
  - induction s as [|a s IH]; [reflexivity|].
    simpl map. destruct s as [|b s]; [reflexivity|].
    rewrite join_cons by discriminate. simpl. f_equal. exact IH.
  - now apply (join_split_from (c :: sep) (length s)).
Qed.

Lemma startsWith_prefix (s t p : str) :
  startsWith s p = true -> startsWith (s ++ t) p = true.
Proof.
  intros H. apply startsWith_inv in H as [u ->].
  rewrite <- app_assoc. apply startsWith_app.
Qed.

Lemma app_eq_snoc (a b x : str) (c : ascii) :
  a ++ b = x ++ [c] -> b <> [] -> exists b0, b = b0 ++ [c] /\ x = a ++ b0.
Proof.
  intros E Hb. destruct (exists_last Hb) as (b0 & c' & ->).
  rewrite app_assoc in E. apply app_inj_tail in E as [<- <-]. now exists b0.
Qed.

Lemma split_from_pieces (sep : str) (n : nat) (s cur : str) :
  sep <> [] -> length s <= n ->
  (forall a b, rev cur = a ++ b -> b <> [] ->
               startsWith (b ++ s) sep = false) ->
  Forall (fun p => ~ occurs sep p) (split_from sep s 0 cur).
Proof.
  intros Hsep. revert s cur; induction n as [|n IH]; intros s cur Hn Hcur.
  - destruct s; [|simpl in Hn; lia]. simpl. constructor; [|constructor].
    intros (a & b & E). specialize (Hcur a (sep ++ b) E).
    rewrite app_nil_r, startsWith_app in Hcur.
    destruct sep; [contradiction|]. now specialize (Hcur ltac:(discriminate)).
  - assert (Hpiece : ~ occurs sep (rev cur)).
    { intros (a & b & E). specialize (Hcur a (sep ++ b) E).
      rewrite <- app_assoc, startsWith_app in Hcur.
      destruct sep; [contradiction|].
      now specialize (Hcur ltac:(discriminate)). }
    destruct s as [|c s]; [simpl; now repeat constructor|].
    cbn [split_from]. destruct (startsWith (c :: s) sep) eqn:E.
    + constructor; [exact Hpiece|].
      apply startsWith_inv in E as [t E].
      destruct sep as [|c' sep']; [contradiction|].
      injection E as Ec Es. subst s.
      replace (length (c' :: sep') - 1) with (length sep') by (simpl; lia).
      rewrite split_from_skip. apply IH.
      * simpl in Hn. rewrite length_app in Hn. lia.
      * intros a b Eab Hb. destruct a; [|discriminate]. simpl in Eab.
        subst b. contradiction.
    + apply IH; [simpl in Hn; lia|].
      intros a b Eab Hb. simpl in Eab.
      destruct (app_eq_snoc a b (rev cur) c (eq_sym Eab) Hb) as (b0 & -> & E0).
      destruct b0 as [|x b0].
      * exact E.
      * rewrite <- app_assoc. apply (Hcur a (x :: b0) E0). discriminate.
Qed.

(** No piece of a split has the separator in it. *)
Lemma split_pieces (s sep : str) :
  sep <> [] -> Forall (fun p => ~ occurs sep p) (split s sep).
Proof.
  intros Hsep. unfold split. destruct sep as [|c sep]; [contradiction|].
  apply (split_from_pieces (c :: sep) (length s)); [discriminate|lia|].
  intros a b E Hb. destruct a; [|discriminate]. simpl in E. subst b.
  contradiction.
Qed.

(** X1: splitting the document at the line feeds loses nothing and leaves
    no line feed in a line: the lines joined with line feeds are the
    document, and no line has a line feed in it. *)
Theorem lines_of_round_trip (markdown : str) :
  join (lines_of markdown) [LF] = markdown /\
  Forall (fun line => ~ In LF line) (lines_of markdown).
Proof.
  split; [apply join_split|].
  eapply Forall_impl; [|apply (split_pieces markdown [LF]); discriminate].
  intros line Hno Hin. apply Hno.
  apply in_split in Hin as (a & b & ->). now exists a, b.
Qed.

(* ================================================================= *)
(** ** [getServiceName] *)

Lemma join_split_char (a b : ascii) (s cur : str) :
  join (split_from [a] s 0 cur) [b] =
  rev cur ++ map (fun c => if Ascii.eqb a c then b else c) s.
Proof.
  revert cur; induction s as [|c s IH]; intros cur.
  - simpl. now rewrite app_nil_r.
  - cbn [split_from startsWith map]. rewrite andb_true_r.
    destruct (Ascii.eqb a c).
    + destruct (split_from_cons [a] s [] (length [a] - 1)) as (p & l & Hs).
      rewrite join_cons by (rewrite Hs; discriminate).
      simpl length. simpl Nat.sub. now rewrite IH.
    + rewrite IH. simpl. now rewrite <- app_assoc.
Qed.

Lemma capitalize_snoc (toUpperCase : str -> str) (w : str) (c : ascii) :
  w <> [] ->
  capitalize toUpperCase (w ++ [c]) = capitalize toUpperCase w ++ [c].
Proof.
  destruct w as [|x w]; [contradiction|]. intros _.
  unfold capitalize, charAt, slice. simpl. now rewrite app_assoc.
Qed.

Lemma title_case_words (toUpperCase : str -> str) (s cur : str) :
  toUpperCase [] = [] -> ~ In "-"%char s ->
  join (map (capitalize toUpperCase) (split_from [" "%char] s 0 cur))
    [" "%char] =
  capitalize toUpperCase (rev cur) ++
  title_case toUpperCase (match cur with [] => true | _ => false end) s.
Proof.
  intros Hup. revert cur; induction s as [|c s IH]; intros cur Hno.
  - simpl. now rewrite app_nil_r.
  - assert (Hc : Ascii.eqb c "-" = false).
    { apply Ascii.eqb_neq. intros ->. apply Hno. now left. }
    assert (Hs : ~ In "-"%char s) by (intros H; apply Hno; now right).
    cbn [split_from startsWith title_case].
    rewrite andb_true_r, Hc, Ascii.eqb_sym. simpl orb.
    destruct (Ascii.eqb c " ").
    + destruct (split_from_cons [" "%char] s [] (length [" "%char] - 1))
        as (p & l & Hl).
      cbn [map]. rewrite join_cons by (rewrite Hl; discriminate).
      simpl length. simpl Nat.sub. rewrite (IH [] Hs).
      change (capitalize toUpperCase (rev [])) with (toUpperCase [] ++ []).
      rewrite Hup. reflexivity.
    + rewrite (IH (c :: cur) Hs). simpl rev. destruct cur as [|x cur].
      * unfold capitalize, charAt, slice. simpl.
        now rewrite Hup, !app_nil_r.
      * rewrite capitalize_snoc, <- app_assoc; [reflexivity|].
        simpl. now destruct (rev cur).
Qed.

Lemma title_case_hyphens (toUpperCase : str -> str) (start : bool) (s : str) :
  title_case toUpperCase start
    (map (fun c => if Ascii.eqb "-" c then " "%char else c) s) =
  title_case toUpperCase start s.
Proof.
  revert start; induction s as [|c s IH]; intros start; [reflexivity|].
  cbn [map]. rewrite (Ascii.eqb_sym "-" c).
  destruct (Ascii.eqb c "-") eqn:E; cbn [title_case]; rewrite ?E, !IH;
    reflexivity.
Qed.

Lemma getServiceName_title_case_eq (toUpperCase : str -> str) (repoName : str) :
  toUpperCase [] = [] ->
  (forall name, getServiceName toUpperCase []
                  (getServiceName toUpperCase [] name) =
                title_case toUpperCase true
                  (title_case toUpperCase true name)) /\
  getServiceName toUpperCase [] repoName = title_case toUpperCase true repoName.
Proof.
  intros Hup.
  assert (H : forall name, getServiceName toUpperCase [] name =
                           title_case toUpperCase true name).
  { intros name. unfold getServiceName. simpl truthy. cbv iota.
    unfold split. cbn [lit list_ascii_of_string].
    rewrite join_split_char. simpl rev. rewrite app_nil_l.
    rewrite (title_case_words toUpperCase _ [] Hup).
    + change (capitalize toUpperCase (rev [])) with (toUpperCase [] ++ []).
      rewrite Hup. apply title_case_hyphens.
    + rewrite in_map_iff. intros (c & Hc & _).
      destruct (Ascii.eqb "-" c) eqn:E; [discriminate|].
      apply Ascii.eqb_neq in E. congruence. }
  split; [intros name; now rewrite !H|apply H].
Qed.

(** X2: [getServiceName] returns a non-empty [service-name] input as it
    is.  With an empty input it title-cases the repository name in one pass:
    every hyphen and every space becomes a space, every character that begins
    the name or follows a hyphen or a space is put in upper case, every other
    character stays as it is. *)
Theorem getServiceName_title_case (toUpperCase : str -> str)
  (inputServiceName repoName : str) :
  toUpperCase [] = [] ->
  (inputServiceName <> [] ->
   getServiceName toUpperCase inputServiceName repoName = inputServiceName) /\
  getServiceName toUpperCase [] repoName = title_case toUpperCase true repoName.
Proof.
  intros Hup. split.
  - unfold getServiceName. now destruct inputServiceName.
  - apply (getServiceName_title_case_eq toUpperCase repoName Hup).
Qed.

Lemma getServiceName_title_case_witness :
  getServiceName toUpperCase_ascii (lit "Billing API")
    (lit "cloud-release-slack-notify") = lit "Billing API" /\
  getServiceName toUpperCase_ascii []
    (lit "cloud-release--slack notify-") = lit "Cloud Release  Slack Notify ".
Proof.
  destruct (getServiceName_title_case toUpperCase_ascii (lit "Billing API")
              (lit "cloud-release-slack-notify") eq_refl) as [H1 _].
  destruct (getServiceName_title_case toUpperCase_ascii (lit "Billing API")
              (lit "cloud-release--slack notify-") eq_refl) as [_ H2].
  split.
  - apply H1. discriminate.
  - rewrite H2. reflexivity.
Defined.

Lemma capital_facts (c : ascii) :
  Ascii.eqb (capital c) "-" = Ascii.eqb c "-" /\
  Ascii.eqb (capital c) " " = Ascii.eqb c " " /\
  is_ascii (capital c) = is_ascii c /\
  capital (capital c) = capital c.
Proof.
  destruct c as [[] [] [] [] [] [] [] []]; vm_compute; repeat split.
Qed.

Lemma title_case_ascii (toUpperCase : str -> str) (start : bool) (s : str) :
  (forall c, is_ascii c = true -> toUpperCase [c] = [capital c]) ->
  Forall (fun c => is_ascii c = true) s ->
  length (title_case toUpperCase start s) = length s /\
  ~ In "-"%char (title_case toUpperCase start s) /\
  Forall (fun c => is_ascii c = true) (title_case toUpperCase start s) /\
  title_case toUpperCase start (title_case toUpperCase start s) =
  title_case toUpperCase start s.
Proof.
  intros Hup Hs. revert start.
  induction Hs as [|c s Hc _ IH]; intros start.
  - repeat split; [intros []|constructor].
  - cbn [title_case].
    destruct (capital_facts c) as (Hh & Hsp & Ha & Hcc).
    destruct (Ascii.eqb c "-" || Ascii.eqb c " ") eqn:E.
    + destruct (IH true) as (Hl & Hno & Has & Hid).
      cbn [title_case]. simpl orb. cbv iota. repeat split.
      * simpl. now rewrite Hl.
      * intros [H|H]; [discriminate|contradiction].
      * now constructor.
      * now rewrite Hid.
    + destruct (IH false) as (Hl & Hno & Has & Hid).
      apply orb_false_iff in E as [E1 E2].
      assert (Hgo : forall x,
                 Ascii.eqb x "-" = false -> Ascii.eqb x " " = false ->
                 is_ascii x = true ->
                 (start = true -> toUpperCase [x] = [x]) ->
                 length (x :: title_case toUpperCase false s) =
                 length (c :: s) /\
                 ~ In "-"%char (x :: title_case toUpperCase false s) /\
                 Forall (fun c => is_ascii c = true)
                   (x :: title_case toUpperCase false s) /\
                 title_case toUpperCase start
                   (x :: title_case toUpperCase false s) =
                 x :: title_case toUpperCase false s).
      { intros x Hx1 Hx2 Hx3 Hx4. repeat split.
        - simpl. now rewrite Hl.
        - intros [H|H]; [|contradiction]. subst x. discriminate.
        - now constructor.
        - cbn [title_case]. rewrite Hx1, Hx2. simpl orb. cbv iota.
          destruct start; [rewrite (Hx4 eq_refl)|]; now rewrite Hid. }
      destruct start.
      * rewrite (Hup c Hc). apply Hgo.
        -- now rewrite Hh.
        -- now rewrite Hsp.
        -- now rewrite Ha.
        -- intros _. rewrite Hup by (now rewrite Ha). now rewrite Hcc.
      * apply Hgo; try assumption. discriminate.
Qed.

(** X3: on an ASCII repository name, with an empty [service-name] input,
    the service name has the length of the repository name, has no hyphen,
    and is a fixed point: title-casing it again changes nothing. *)
Theorem getServiceName_ascii (toUpperCase : str -> str) (repoName : str) :
  toUpperCase [] = [] ->
  (forall c, is_ascii c = true -> toUpperCase [c] = [capital c]) ->
  Forall (fun c => is_ascii c = true) repoName ->
  length (getServiceName toUpperCase [] repoName) = length repoName /\
  ~ In "-"%char (getServiceName toUpperCase [] repoName) /\
  getServiceName toUpperCase [] (getServiceName toUpperCase [] repoName) =
  getServiceName toUpperCase [] repoName.
Proof.
  intros Hnil Hup Hs.
  destruct (getServiceName_title_case_eq toUpperCase repoName Hnil) as [E1 E2].
  rewrite E1, E2.
  destruct (title_case_ascii toUpperCase true repoName Hup Hs)
    as (Hl & Hno & _ & Hid).
  repeat split; assumption.
Qed.

Lemma getServiceName_ascii_witness :
  length (getServiceName toUpperCase_ascii [] (lit "cloud-release")) = 13 /\
  ~ In "-"%char (getServiceName toUpperCase_ascii [] (lit "cloud-release")).
Proof.
  destruct (getServiceName_ascii toUpperCase_ascii (lit "cloud-release"))
    as (Hl & Hno & _).
  - reflexivity.
  - intros c _. reflexivity.
  - repeat constructor.
  - split; [exact Hl|exact Hno].
Defined.

(* ================================================================= *)
(** ** The first loop, line by line *)

(** X4: the four [if] statements of the first loop are not chained with
    [else], and yet at most one of their conditions holds of a line: a line
    adds one element or none, at the end of [elements]. *)
Theorem scan_line_one_element (line : str) :
  kinds line <= 1 /\
  forall elements elements',
    scan_line elements line = Ok elements' ->
    elements' = elements \/ exists element, elements' = elements ++ [element].
Proof.
  split.
  - unfold kinds.
    destruct (is_bracket_header line) eqn:E1.
    { destruct (bracket_excludes _ E1) as (-> & -> & ->). simpl. lia. }
    destruct (is_bare_header line) eqn:E2.
    { destruct (bare_excludes _ E2) as (_ & -> & ->). simpl. lia. }
    destruct (is_section_line line) eqn:E3.
    { rewrite (section_excludes _ E3). simpl. lia. }
    destruct (is_item_line line); simpl; lia.
  - intros elements elements'. rewrite scan_line_eq. unfold line_elements.
    destruct (is_header_line line).
    { destruct (header_of line); [|discriminate]. intros [= <-]. eauto. }
    destruct (is_section_line line); [intros [= <-]; eauto|].
    destruct (is_item_line line).
    { destruct (item_sections line); [|discriminate]. intros [= <-]. eauto. }
    intros [= <-]. left. simpl. now rewrite app_nil_r.
Qed.

(* ================================================================= *)
(** ** The errors of [parseMarkdown] *)

Lemma link_loop_error (links : list str) (itemCpy : option str)
  (acc : list Run) (e : exn) :
  link_loop links itemCpy acc = Err e ->
  e = TypeError_null "1" \/ e = TypeError_undefined "split".
Proof.
  revert itemCpy acc; induction links as [|link links IH]; intros itemCpy acc;
    cbn [link_loop]; [discriminate|].
  destruct (match_ link re_paren); cbn [index bind]; [|intros [= <-]; now left].
  destruct (match_ link re_bracket); cbn [index bind];
    [|intros [= <-]; now left].
  destruct itemCpy; [apply IH|intros [= <-]; now right].
Qed.

Lemma line_elements_error (line : str) (e : exn) :
  line_elements line = Err e ->
  e = TypeError_null "1" \/ e = TypeError_null "0" \/
  e = TypeError_undefined "split".
Proof.
  unfold line_elements, header_of, bracket_header, bare_header, item_sections.
  destruct (is_header_line line).
  - destruct (is_bracket_header line).
    + destruct (match_ line re_version_bracket); cbn [index bind];
        [|intros [= <-]; auto].
      destruct (match_ line re_date); cbn [index bind]; [|intros [= <-]; auto].
      destruct (match_ line re_paren); cbn [index bind];
        [discriminate|intros [= <-]; auto].
    + destruct (match_ line re_version_token); cbn [index bind];
        [|intros [= <-]; auto].
      destruct (match_ line re_date); cbn [index bind];
        [discriminate|intros [= <-]; auto].
  - destruct (is_section_line line); [discriminate|].
    destruct (is_item_line line); [|discriminate].
    destruct (link_loop _ _ _) as [[cpy rs]|e'] eqn:E; cbn [bind];
      [discriminate|].
    intros [= <-]. apply link_loop_error in E as [->| ->]; auto.
Qed.

Lemma scan_first_error (pre : list str) (line : str) (post : list str)
  (e : exn) :
  Forall (fun l => exists es, line_elements l = Ok es) pre ->
  line_elements line = Err e ->
  scan [] (pre ++ line :: post) = Err e.
Proof.
  intros Hpre He. induction Hpre as [|l pre [es Hl] _ IH].
  - simpl app. now rewrite scan_cons, He.
  - rewrite <- app_comm_cons, scan_cons, Hl, IH. reflexivity.
Qed.

Lemma scan_error_split (lines : list str) (e : exn) :
  scan [] lines = Err e ->
  exists pre line post,
    lines = pre ++ line :: post /\
    Forall (fun l => exists es, line_elements l = Ok es) pre /\
    line_elements line = Err e.
Proof.
  induction lines as [|l lines IH]; [discriminate|].
  rewrite scan_cons. destruct (line_elements l) as [es|e'] eqn:El; cbn [bind].
  - destruct (scan [] lines) as [more|e''] eqn:Es; cbn [bind]; [discriminate|].
    intros [= <-]. destruct (IH eq_refl) as (pre & line & post & -> & Hp & He).
    exists (l :: pre), line, post. repeat split; [|exact He].
    constructor; [eauto|exact Hp].
  - intros [= <-]. exists [], l, lines. repeat split; [constructor|exact El].
Qed.

(** X5: [parseMarkdown] ends with no other error than the four
    [TypeError]s of reading index 1 or index 0 of a [null] match, [split] of
    the undefined [itemCpy], and [items] of the undefined last section. *)
Theorem parseMarkdown_errors (markdown : str) (e : exn) :
  parseMarkdown markdown = Err e -> parse_error e.
Proof.
  unfold parseMarkdown, parse_lines, parse_error.
  destruct (scan [] _) as [elements|e'] eqn:Es; cbn [bind].
  - destruct (build init elements) as [st|e'] eqn:Eb; cbn [bind];
      [discriminate|].
    intros [= <-]. apply build_error in Eb. auto.
  - intros [= <-].
    apply scan_error_split in Es as (pre & line & post & _ & _ & He).
    apply line_elements_error in He. intuition.
Qed.

Lemma parseMarkdown_errors_witness :
  parse_error (TypeError_undefined "split").
Proof.
  apply (parseMarkdown_errors (lit "* [a](b)[a](b)[a](b)")).
  reflexivity.
Defined.

(** X6: the first loop runs over the whole document before the second
    starts, so its errors come first: the error of the first line that the
    first loop cannot take apart is the error of the parse, also when an item
    line before it has no section. *)
Theorem first_loop_error_first (markdown : str) (pre : list str) (line : str)
  (post : list str) (e : exn) :
  lines_of markdown = pre ++ line :: post ->
  Forall (fun l => exists es, line_elements l = Ok es) pre ->
  line_elements line = Err e ->
  parseMarkdown markdown = Err e.
Proof.
  intros Hl Hpre He. unfold parseMarkdown, parse_lines.
  fold (lines_of markdown). rewrite Hl.
  now rewrite (scan_first_error pre line post e Hpre He).
Qed.

Lemma first_loop_error_first_witness :
  parseMarkdown (lit "* orphan" ++ [LF] ++ lit "# [1.0]") =
  Err (TypeError_null "0") /\
  parseMarkdown (lit "* orphan") = Err (TypeError_undefined "items").
Proof.
  split; [|reflexivity].
  apply (first_loop_error_first _ [lit "* orphan"] (lit "# [1.0]") []).
  - reflexivity.
  - repeat constructor. eexists. reflexivity.
  - reflexivity.
Defined.

(* ================================================================= *)
(** ** The documents on which the parse returns, exactly *)

Lemma scan_ok_lines (lines : list str) (elements : list Element) :
  scan [] lines = Ok elements -> headers_split lines /\ items_split lines.
Proof.
  unfold headers_split, items_split.
  revert elements; induction lines as [|line lines IH]; intros elements.
  - intros _. split; constructor.
  - rewrite scan_cons.
    destruct (line_elements line) as [added|] eqn:El; [|discriminate].
    cbn [bind]. destruct (scan [] lines) as [more|] eqn:Es; [|discriminate].
    intros _. destruct (IH more eq_refl) as [Hh Hi].
    unfold line_elements in El. split; constructor; try assumption.
    + intros Hhl. rewrite Hhl in El.
      destruct (header_of line); [eauto|discriminate].
    + intros Hil. destruct (item_line_only _ Hil) as [Hh' Hs'].
      rewrite Hh', Hs', Hil in El.
      destruct (item_sections line); [eauto|discriminate].
Qed.

Lemma has_section_update (st : store) (f : Version -> Version) :
  currentVersion st < length (heap st) ->
  sections (f (nth (currentVersion st) (heap st) placeholder)) <> [] ->
  has_section
    {| heap := update (heap st) (currentVersion st) f;
       versions := versions st;
       currentVersion := currentVersion st |} = true.
Proof.
  intros Hcur Hf. unfold has_section. simpl.
  rewrite nth_update_same by exact Hcur.
  now destruct (sections (f _)).
Qed.

Lemma build_placed (lines : list str) (elements : list Element)
  (st st' : store) :
  scan [] lines = Ok elements -> build st elements = Ok st' ->
  currentVersion st < length (heap st) ->
  placed (has_section st) lines = true.
Proof.
  revert elements st; induction lines as [|line lines IH]; intros elements st;
    [reflexivity|].
  rewrite scan_cons. unfold line_elements. cbn [placed].
  destruct (is_header_line line).
  - destruct (header_of line) as [eh|] eqn:Eh; [|discriminate]. cbn [bind].
    destruct (header_of_raw _ _ Eh) as [h ->].
    destruct (scan [] lines) as [more|] eqn:Es; [|discriminate].
    intros [= <-] Hb Hcur. cbn [app] in Hb. rewrite build_cons in Hb.
    unfold as_element in Hb. cbn [step bind] in Hb.
    apply (IH more) in Hb; [|reflexivity|simpl; rewrite length_app; simpl; lia].
    unfold has_section in Hb. simpl in Hb. now rewrite nth_middle in Hb.
  - destruct (is_section_line line).
    + cbn [bind]. destruct (scan [] lines) as [more|] eqn:Es; [|discriminate].
      intros [= <-] Hb Hcur. cbn [app] in Hb. rewrite build_cons in Hb.
      cbn [step bind] in Hb.
      apply (IH more) in Hb; [|reflexivity|simpl; now rewrite update_length].
      rewrite has_section_update in Hb; [exact Hb|exact Hcur|].
      simpl. now destruct (sections _).
    + destruct (is_item_line line).
      * destruct (item_sections line) as [rs|]; [|discriminate]. cbn [bind].
        destruct (scan [] lines) as [more|] eqn:Es; [|discriminate].
        intros [= <-] Hb Hcur. cbn [app] in Hb. rewrite build_cons in Hb.
        cbn [step] in Hb. unfold has_section at 1.
        destruct (sections (nth (currentVersion st) (heap st) placeholder))
          as [|s0 ss] eqn:Esec; [discriminate|].
        destruct (nth_error (s0 :: ss) (length (s0 :: ss) - 1));
          [|discriminate].
        cbn [bind andb] in Hb |- *.
        apply (IH more) in Hb; [|reflexivity|simpl; now rewrite update_length].
        rewrite has_section_update in Hb; [|exact Hcur|].
        -- unfold has_section. now rewrite Esec.
        -- simpl. apply update_nonempty. now rewrite Esec.
      * cbn [bind]. destruct (scan [] lines) as [more|] eqn:Es; [|discriminate].
        intros [= <-] Hb Hcur. now apply (IH more).
Qed.

(** X7: the parse of a document returns exactly when every header line has
    the parts its pattern reads, every item line splits into runs, and every
    item line has a section line before it, after the last header line before
    it (or after the start of the document). *)
Theorem parseMarkdown_returns_iff (markdown : str) :
  (exists vs, parseMarkdown markdown = Ok vs) <->
  headers_split (lines_of markdown) /\
  items_split (lines_of markdown) /\
  placed false (lines_of markdown) = true.
Proof.
  split.
  - intros [vs H]. unfold parseMarkdown, parse_lines in H.
    fold (lines_of markdown) in H.
    destruct (scan [] (lines_of markdown)) as [elements|] eqn:Es;
      [|discriminate].
    cbn [bind] in H.
    destruct (build init elements) as [st|] eqn:Eb; [|discriminate].
    destruct (scan_ok_lines _ _ Es) as [Hh Hi].
    split; [exact Hh|]. split; [exact Hi|].
    apply (build_placed _ _ _ _ Es Eb). simpl. lia.
  - intros (Hh & Hi & Hp). unfold parseMarkdown, parse_lines.
    fold (lines_of markdown).
    assert (Hinit : current_ok false init).
    { split; [simpl; lia|discriminate]. }
    destruct (parse_lines_returns (lines_of markdown) false init Hh Hi Hp Hinit)
      as (elements & st & -> & Eb).
    cbn [bind]. rewrite Eb. cbn [bind]. eauto.
Qed.

(* ================================================================= *)
(** ** Changelogs put end to end *)

Lemma split_char_app (c : ascii) (a b cur : str) :
  split_from [c] (a ++ c :: b) 0 cur =
  split_from [c] a 0 cur ++ split_from [c] b 0 [].
Proof.
  revert cur; induction a as [|x a IH]; intros cur.
  - cbn [app split_from startsWith]. now rewrite Ascii.eqb_refl.
  - cbn [app split_from startsWith]. rewrite andb_true_r.
    destruct (Ascii.eqb c x); simpl length; simpl Nat.sub; now rewrite IH.
Qed.

Lemma lines_of_app (a b : str) :
  lines_of (a ++ [LF] ++ b) = lines_of a ++ lines_of b.
Proof. unfold lines_of, split. apply split_char_app. Qed.

Lemma update_app_r {A : Type} (P h : list A) (c : nat) (f : A -> A) :
  update (P ++ h) (length P + c) f = P ++ update h c f.
Proof. induction P as [|x P IH]; simpl; [reflexivity|now rewrite IH]. Qed.

Lemma nth_app_r {A : Type} (P h : list A) (c : nat) (d : A) :
  nth (length P + c) (P ++ h) d = nth c h d.
Proof. induction P as [|x P IH]; simpl; [reflexivity|exact IH]. Qed.

(** The second loop on a store whose current version is past a prefix [P]
    of the heap goes as on the store with another prefix [Q]: the prefix is
    out of its reach. *)
Lemma build_shift (elements : list Element) (P Q h : list Version)
  (vsP w : list nat) (c : nat) :
  Forall (fun r => r < length P) vsP ->
  (st <- build {| heap := P ++ h;
                  versions := vsP ++ map (Nat.add (length P)) w;
                  currentVersion := length P + c |} elements ;;
   Ok (deref st)) =
  (st <- build {| heap := Q ++ h;
                  versions := map (Nat.add (length Q)) w;
                  currentVersion := length Q + c |} elements ;;
   Ok (map (fun r => nth r P placeholder) vsP ++ deref st)).
Proof.
  intros HP. revert h w c.
  induction elements as [|element elements IH]; intros h w c.
  - simpl. f_equal. unfold deref; simpl. rewrite map_app, !map_map. f_equal.
    + apply map_ext_in. intros r Hr. rewrite Forall_forall in HP.
      now rewrite app_nth1 by auto.
    + apply map_ext. intros r. now rewrite !nth_app_r.
  - rewrite !build_cons.
    destruct element as [raw ve d u|raw t|raw rs]; cbn [step bind].
    + cbn [heap versions currentVersion].
      rewrite <- !app_assoc, !length_app.
      replace (map (Nat.add (length P)) w ++ [length P + length h])
        with (map (Nat.add (length P)) (w ++ [length h]))
        by (now rewrite map_app).
      replace (map (Nat.add (length Q)) w ++ [length Q + length h])
        with (map (Nat.add (length Q)) (w ++ [length h]))
        by (now rewrite map_app).
      apply IH.
    + cbn [heap versions currentVersion]. rewrite !update_app_r. apply IH.
    + cbn [heap versions currentVersion]. rewrite !nth_app_r.
      destruct (nth_error _ _); [|reflexivity].
      cbn [bind]. rewrite !update_app_r. apply IH.
Qed.

Lemma build_in_heap (elements : list Element) (st st' : store) :
  build st elements = Ok st' -> in_heap st -> in_heap st'.
Proof.
  revert st; induction elements as [|element elements IH]; intros st.
  - now intros [= <-].
  - rewrite build_cons. destruct (step st element) as [st1|] eqn:E;
      [|discriminate].
    cbn [bind]. intros Hb Hin. apply (IH st1 Hb).
    now destruct (step_headers _ _ _ E Hin).
Qed.

Lemma parse_lines_app (a b : list str) (va vb : list Version) :
  parse_lines a = Ok va -> parse_lines b = Ok vb ->
  b = [] \/ (exists h b', b = h :: b' /\ is_header_line h = true) ->
  parse_lines (a ++ b) = Ok (va ++ vb).
Proof.
  unfold parse_lines. intros Ha Hb Hhead. rewrite scan_app.
  destruct (scan [] a) as [ea|] eqn:Ea; [|discriminate]. cbn [bind] in Ha |- *.
  destruct (scan [] b) as [eb|] eqn:Eb; [|discriminate]. cbn [bind] in Hb |- *.
  destruct (build init ea) as [sta|] eqn:Eba; [|discriminate].
  cbn [bind] in Ha. injection Ha as <-.
  rewrite build_app, Eba. cbn [bind].
  destruct Hhead as [->|(h & b' & -> & Hh)].
  - injection Eb as <-. cbn [build bind] in Hb |- *. injection Hb as <-.
    now rewrite app_nil_r.
  - rewrite scan_cons in Eb. unfold line_elements in Eb. rewrite Hh in Eb.
    destruct (header_of h) as [eh|] eqn:Eh; [|discriminate]. cbn [bind] in Eb.
    destruct (header_of_raw _ _ Eh) as [hr ->].
    destruct (scan [] b') as [more|]; [|discriminate]. injection Eb as <-.
    cbn [app] in Hb |- *. rewrite build_cons in Hb |- *.
    unfold as_element in Hb |- *. cbn [step bind] in Hb |- *.
    assert (Hin : in_heap sta)
      by (apply (build_in_heap _ _ _ Eba); constructor).
    pose proof (build_shift more (heap sta) [placeholder]
                  [{| header := {| version := version hr; date := date hr;
                                   url := url hr |};
                      sections := [] |}]
                  (versions sta) [0] 0 Hin) as Hshift.
    cbn [map length app] in Hshift. rewrite !Nat.add_0_r in Hshift.
    unfold init in Hb. cbn [heap versions currentVersion length app] in Hb.
    rewrite Hshift.
    destruct (build _ more) as [st|]; [|discriminate].
    cbn [bind] in Hb |- *. injection Hb as <-. reflexivity.
Qed.

(** X8: changelogs put end to end parse to their records put end to end.
    When the parse of [a] and the parse of [b] return, and [b] begins with a
    header line, the parse of [a], a line feed and [b] returns the records of
    [a] followed by the records of [b], each as it is in the parse of its own
    document: a section or an item never goes to a version of another
    header. *)
Theorem parseMarkdown_app (a b : str) (va vb : list Version) :
  parseMarkdown a = Ok va -> parseMarkdown b = Ok vb ->
  (exists h rest, lines_of b = h :: rest /\ is_header_line h = true) ->
  parseMarkdown (a ++ [LF] ++ b) = Ok (va ++ vb).
Proof.
  unfold parseMarkdown. intros Ha Hb (h & rest & Hl & Hh).
  fold (lines_of (a ++ [LF] ++ b)). rewrite lines_of_app.
  apply parse_lines_app; [exact Ha|exact Hb|].
  right. now exists h, rest.
Qed.

Lemma parseMarkdown_app_witness :
  exists va vb,
    parseMarkdown changelog_example = Ok va /\
    parseMarkdown changelog_repeated = Ok vb /\
    parseMarkdown (changelog_example ++ [LF] ++ changelog_repeated) =
    Ok (va ++ vb).
Proof.
  destruct (parseMarkdown changelog_example) as [va|] eqn:Ea;
    [|vm_compute in Ea; discriminate].
  destruct (parseMarkdown changelog_repeated) as [vb|] eqn:Eb;
    [|vm_compute in Eb; discriminate].
  exists va, vb. split; [reflexivity|]. split; [reflexivity|].
  apply (parseMarkdown_app _ _ va vb Ea Eb).
  eexists _, _. split; reflexivity.
Defined.

(* ================================================================= *)
(** ** The fields of the records *)

Lemma exec_lits (p : str) (R : list atom) (s : str) (segs : list str)
  (rest : str) :
  exec (map (fun c => One (Lit c)) p ++ R) s = Some (segs, rest) ->
  exists s0 segs0,
    s = p ++ s0 /\ segs = map (fun c => [c]) p ++ segs0 /\
    exec R s0 = Some (segs0, rest).
Proof.
  revert s segs; induction p as [|a p IH]; intros s segs H.
  - now exists s, segs.
  - cbn [map app exec times] in H.
    destruct s as [|c s]; [discriminate|].
    destruct (cls_match (Lit a) c) eqn:Ec; [|discriminate].
    apply cls_match_Lit in Ec. subst c.
    apply cons_seg_inv in H as (seg & segs1 & rest1 & H & [= -> ->]).
    destruct (exec (map (fun c => One (Lit c)) p ++ R) s)
      as [[segs2 rest2]|] eqn:E; [|discriminate].
    injection H as <- <- <-.
    destruct (IH _ _ E) as (s0 & segs0 & -> & -> & H0).
    now exists s0, segs0.
Qed.

Lemma groups_lits (p : str) (R : list atom) (segs0 : list str) :
  groups (map (fun c => One (Lit c)) p ++ R)
    (map (fun c => [c]) p ++ segs0) None =
  groups R segs0 None.
Proof. induction p as [|a p IH]; [reflexivity|exact IH]. Qed.

Lemma lazy_until (x : ascii) (s : str) (segs : list str) (rest : str) :
  lazy Any (exec [GClose; One (Lit x)]) s = Some (segs, rest) ->
  exists g, segs = [g; []; [x]] /\ s = g ++ x :: rest /\ clean x g.
Proof.
  revert segs; induction s as [|c s IH]; intros segs; cbn [lazy].
  - cbn. discriminate.
  - destruct (exec [GClose; One (Lit x)] (c :: s)) as [[sg rs]|] eqn:E.
    + cbn in E. destruct (Ascii.eqb x c) eqn:Ex; [|discriminate].
      apply Ascii.eqb_eq in Ex. subst c. injection E as <- <-.
      intros [= <- <-]. exists []. repeat split. constructor.
    + cbn in E. destruct (Ascii.eqb x c) eqn:Ex; [discriminate|].
      destruct (cls_match Any c) eqn:Ec; [|discriminate].
      intros H.
      apply cons_seg_inv in H as (seg & segs1 & rest1 & H & [= -> ->]).
      destruct (IH _ H) as (g & [= -> ->] & -> & Hg).
      exists (c :: g). repeat split. constructor; [|exact Hg]. split.
      * apply Ascii.eqb_neq in Ex. congruence.
      * simpl in Ec. now apply negb_true_iff in Ec.
Qed.

(** The group of [p(.*?)x] has no [x] and no line terminator in it, and
    stands in the subject between [p] and [x]. *)
Lemma capture_until (p : str) (x : ascii) (line v : str) :
  index (match_ line (re_until p x)) 1 "1" = Ok v ->
  clean x v /\ occurs (p ++ v ++ [x]) line.
Proof.
  unfold match_, find, re_until. cbn [anchored body].
  destruct (search _ line) as [[segs rest]|] eqn:E; [|discriminate].
  apply search_sound in E as (pre & s' & -> & E).
  apply exec_lits in E as (s0 & segs0 & -> & -> & E).
  cbn [exec] in E.
  destruct (lazy Any _ s0) as [[sg rs]|] eqn:El; [|discriminate].
  injection E as <- <-.
  apply lazy_until in El as (g & -> & -> & Hg).
  rewrite groups_lits. cbn. intros [= <-].
  split; [exact Hg|]. exists pre, rs. now rewrite <- !app_assoc.
Qed.

Lemma date_found (line d : str) :
  index (match_ line re_date) 0 "0" = Ok d -> date_shape d = true.
Proof.
  unfold match_, find. simpl anchored.
  destruct (search _ line) as [[segs rest]|] eqn:E; [|discriminate].
  apply search_sound in E as (pre & s' & -> & E).
  apply exec_sound in E as [Hm _]. intros [= <-]. now apply date_matches.
Qed.

Lemma header_of_shape (line : str) (h : HeaderRecord) :
  header_of line = Ok (as_element line h) ->
  header_shape h /\ (url h = None <-> is_bracket_header line = false).
Proof.
  unfold header_of, bracket_header, bare_header, as_element, header_shape.
  destruct (is_bracket_header line).
  - destruct (index (match_ line re_version_bracket) 1 "1") as [v|] eqn:Ev;
      [|discriminate].
    destruct (index (match_ line re_date) 0 "0") as [d|] eqn:Ed;
      [|discriminate].
    destruct (index (match_ line re_paren) 1 "1") as [u|] eqn:Eu;
      [|discriminate].
    cbn [bind]. intros [= <- <- <-].
    apply (capture_until (lit "# [") "]") in Ev as [Hv _].
    apply (capture_until (lit "(") ")") in Eu as [Hu _].
    apply date_found in Ed. repeat split; try assumption; discriminate.
  - destruct (index (match_ line re_version_token) 1 "1") as [v|] eqn:Ev;
      [|discriminate].
    destruct (index (match_ line re_date) 0 "0") as [d|] eqn:Ed;
      [|discriminate].
    cbn [bind]. intros [= <- <- <-].
    apply (capture_until (lit "# ") " ") in Ev as [Hv _].
    apply date_found in Ed. repeat split; assumption.
Qed.

(** X9: the fields of the records that the parse returns.  The date of
    every record is a YYYY-MM-DD text.  The record of a line that begins with
    [# [] or [## [] has a url, without a closing parenthesis, and a version
    without a closing bracket; the record of a bare numeric header line has no
    url, and a version without a space.  No version and no url has a line
    terminator in it. *)
Theorem parseMarkdown_fields (markdown : str) (vs : list Version) :
  parseMarkdown markdown = Ok vs ->
  Forall2 (fun line v =>
             header_shape (header v) /\
             (url (header v) = None <-> is_bracket_header line = false))
    (header_lines markdown) vs.
Proof.
  intros H. apply parse_lines_headers in H.
  eapply Forall2_impl; [|exact H].
  intros line v Hv. now apply header_of_shape.
Qed.

Lemma parseMarkdown_fields_witness :
  exists v,
    parseMarkdown changelog_example = Ok [v] /\ header_shape (header v).
Proof.
  destruct (parseMarkdown changelog_example) as [vs|] eqn:E;
    [|vm_compute in E; discriminate].
  pose proof (parseMarkdown_fields changelog_example vs E) as H.
  destruct vs as [|v [|v' vs]];
    [vm_compute in E; discriminate| |vm_compute in E; discriminate].
  exists v. split; [reflexivity|].
  inversion H as [|? ? ? ? [Hs _] _]. exact Hs.
Defined.

(* ================================================================= *)
(** ** One more line *)











(* ================================================================= *)
(** ** The characters of the runs *)

Lemma replaceAll_from_chars (pat rep s : str) (k : nat) (x : ascii) :
  In x (replaceAll_from pat rep s k) -> In x s \/ In x rep.
Proof.
  revert k; induction s as [|c s IH]; intros k; cbn [replaceAll_from];
    [intros []|].
  destruct k as [|k].
  - destruct (startsWith (c :: s) pat).
    + rewrite in_app_iff. intros [H|H]; [now right|].
      destruct (IH _ H); [left; now right|now right].
    + intros [->|H]; [left; now left|].
      destruct (IH _ H); [left; now right|now right].
  - intros H. destruct (IH _ H); [left; now right|now right].
Qed.

Lemma replaceAll_char_gone (c : ascii) (rep s : str) :
  ~ In c rep -> ~ In c (replaceAll s [c] rep).
Proof.
  intros Hrep. unfold replaceAll. induction s as [|a s IH];
    cbn [replaceAll_from startsWith]; [intros []|].
  rewrite andb_true_r. destruct (Ascii.eqb c a) eqn:E.
  - simpl length. simpl Nat.sub. rewrite in_app_iff. intuition.
  - intros [->|H]; [|contradiction].
    rewrite Ascii.eqb_refl in E. discriminate.
Qed.

Lemma normalize_no_angle (line : str) : no_angle (normalize line).
Proof.
  unfold normalize, no_angle. split.
  - intros H. apply replaceAll_from_chars in H as [H|H].
    + revert H. apply (replaceAll_char_gone "<"). simpl. intuition discriminate.
    + simpl in H. intuition discriminate.
  - apply (replaceAll_char_gone ">"). simpl. intuition discriminate.
Qed.

Lemma split_from_incl (sep s cur : str) (k : nat) (p : str) :
  In p (split_from sep s k cur) -> incl p (rev cur ++ s).
Proof.
  revert k cur; induction s as [|c s IH]; intros k cur; cbn [split_from].
  - intros [<-|[]]. now rewrite app_nil_r.
  - destruct k as [|k].
    + destruct (startsWith (c :: s) sep).
      * intros [<-|H]; [apply incl_appl, incl_refl|].
        apply IH in H. simpl in H.
        apply incl_appr, incl_tl. exact H.
      * intros H. apply IH in H. simpl in H. now rewrite <- app_assoc in H.
    + intros H. apply IH in H.
      intros x Hx. apply H in Hx. rewrite in_app_iff in *.
      destruct Hx; [now left|right; now right].
Qed.

Lemma split_incl (s sep p : str) : In p (split s sep) -> incl p s.
Proof.
  unfold split. destruct sep.
  - rewrite in_map_iff. intros (c & <- & Hc) x [<-|[]]. exact Hc.
  - apply split_from_incl.
Qed.

Lemma all_from_incl (r : list atom) (s : str) (k : nat) (l : str) :
  In l (all_from r s k) -> incl l s.
Proof.
  revert k; induction s as [|c s IH]; intros k.
  - destruct k; cbn [all_from]; [|intros []].
    destruct (exec r []) as [[segs rest]|] eqn:E; [|intros []].
    apply exec_sound in E as [_ E]. intros [<-|[]].
    rewrite E. apply incl_appl, incl_refl.
  - destruct k as [|k]; cbn [all_from].
    + destruct (exec r (c :: s)) as [[segs rest]|] eqn:E.
      * apply exec_sound in E as [_ E]. intros [<-|H].
        -- rewrite E. apply incl_appl, incl_refl.
        -- apply incl_tl. now apply (IH _ H).
      * intros H. apply incl_tl. now apply (IH _ H).
    + intros H. apply incl_tl. now apply (IH _ H).
Qed.

Lemma capture_incl (p : str) (x : ascii) (line v : str) :
  index (match_ line (re_until p x)) 1 "1" = Ok v -> incl v line.
Proof.
  intros H. apply capture_until in H as [_ (a & b & ->)].
  intros c Hc. rewrite !in_app_iff. right. left. right. left. exact Hc.
Qed.

Lemma link_loop_incl (item : str) (links : list str) (itemCpy : option str)
  (acc : list Run) (cpy' : option str) (rs : list Run) :
  Forall (fun l => incl l item) links ->
  (forall cpy, itemCpy = Some cpy -> incl cpy item) ->
  Forall (fun r => Forall (fun t => incl t item) (run_strings r)) acc ->
  link_loop links itemCpy acc = Ok (cpy', rs) ->
  (forall cpy, cpy' = Some cpy -> incl cpy item) /\
  Forall (fun r => Forall (fun t => incl t item) (run_strings r)) rs.
Proof.
  intros Hlinks. revert itemCpy acc.
  induction Hlinks as [|link links Hl _ IH]; intros itemCpy acc Hcpy Hacc;
    cbn [link_loop].
  - intros [= <- <-]. now split.
  - destruct (index (match_ link re_paren) 1 "1") as [u|] eqn:Eu;
      [|discriminate].
    destruct (index (match_ link re_bracket) 1 "1") as [t|] eqn:Et;
      [|discriminate].
    cbn [bind]. destruct itemCpy as [cpy|]; [|discriminate].
    apply (capture_incl (lit "(") ")") in Eu.
    apply (capture_incl (lit "[") "]") in Et.
    specialize (Hcpy cpy eq_refl).
    apply IH.
    + intros c Hc. apply incl_tran with cpy; [|exact Hcpy].
      apply (split_incl cpy link). now apply nth_error_In in Hc.
    + apply Forall_app. split; [exact Hacc|].
      constructor; [|constructor; [|constructor]].
      * destruct (nth_error (split cpy link) 0) as [b|] eqn:Eb;
          [|constructor].
        constructor; [|constructor].
        apply incl_tran with cpy; [|exact Hcpy].
        apply (split_incl cpy link). now apply nth_error_In in Eb.
      * repeat constructor; try assumption;
          (eapply incl_tran; [eassumption|exact Hl]).
Qed.

(** X11: no run of an item has an angle bracket in it: the text of a run,
    the markup of a link, its url and its display text are made of characters
    of the normalised line, where every [<] and [>] has been replaced. *)
Theorem item_sections_no_angle (line : str) (rs : list Run) :
  item_sections line = Ok rs ->
  Forall (fun r => Forall no_angle (run_strings r)) rs.
Proof.
  unfold item_sections. rewrite nullish_match_g.
  destruct (link_loop _ _ _) as [[cpy' rs']|] eqn:E; [|discriminate].
  cbn [bind]. intros [= <-].
  apply (link_loop_incl (normalize line)) in E as [Hcpy Hrs].
  - assert (Hall : Forall (fun r => Forall (fun t => incl t (normalize line))
                                      (run_strings r))
                     (rs' ++ [Text cpy'])).
    { apply Forall_app. split; [exact Hrs|]. constructor; [|constructor].
      destruct cpy' as [cpy|]; repeat constructor. now apply Hcpy. }
    eapply Forall_impl; [|exact Hall]. intros r Hr.
    eapply Forall_impl; [|exact Hr]. intros t Ht.
    destruct (normalize_no_angle line) as [H1 H2].
    split; intros Hin; [apply H1|apply H2]; now apply Ht.
  - rewrite Forall_forall. intros l Hl. now apply all_from_incl in Hl.
  - intros cpy [= <-]. apply incl_refl.
  - constructor.
Qed.

Lemma item_sections_no_angle_witness :
  exists rs,
    item_sections (lit "* a <b> [c>](d<)") = Ok rs /\
    Forall (fun r => Forall no_angle (run_strings r)) rs.
Proof.
  destruct (item_sections (lit "* a <b> [c>](d<)")) as [rs|] eqn:E;
    [|vm_compute in E; discriminate].
  exists rs. split; [reflexivity|].
  exact (item_sections_no_angle _ rs E).
Defined.

(* ================================================================= *)
(** ** An item with one link *)

Lemma plain_not (x : ascii) (s : str) :
  special x = true -> plain s -> ~ In x s.
Proof.
  intros Hx Hs Hin. unfold plain in Hs. rewrite Forall_forall in Hs.
  specialize (Hs x Hin). congruence.
Qed.

Lemma replaceAll_absent (c0 : ascii) (pat rep s : str) :
  ~ In c0 s -> replaceAll_from (c0 :: pat) rep s 0 = s.
Proof.
  induction s as [|a s IH]; intros Hno; cbn [replaceAll_from startsWith];
    [reflexivity|].
  assert (E : Ascii.eqb c0 a = false).
  { apply Ascii.eqb_neq. intros ->. apply Hno. now left. }
  rewrite E. cbn [andb]. f_equal. apply IH. intros H. apply Hno. now right.
Qed.

(** The normalisation takes the bullet off a line that has no other star,
    ampersand or angle bracket. *)
Lemma normalize_bullet (body : str) :
  ~ In "*"%char body -> ~ In "&"%char body ->
  ~ In "<"%char body -> ~ In ">"%char body ->
  normalize (lit "* " ++ body) = body.
Proof.
  intros Hs Ha Hl Hg. unfold normalize, replaceAll.
  cbn [lit list_ascii_of_string app].
  assert (E1 : replaceAll_from ["*"; "*"]%char [] ("*" :: " " :: body)%char 0
               = ("*" :: " " :: body)%char).
  { cbn [replaceAll_from startsWith]. cbn [Ascii.eqb Bool.eqb andb].
    now rewrite replaceAll_absent. }
  rewrite E1.
  assert (E2 : replaceAll_from ["*"; " "]%char [] ("*" :: " " :: body)%char 0
               = body).
  { cbn [replaceAll_from startsWith]. cbn [Ascii.eqb Bool.eqb andb].
    cbn [length Nat.sub app]. now apply replaceAll_absent. }
  rewrite E2.
  rewrite (replaceAll_absent "&" _ _ body Ha).
  rewrite (replaceAll_absent "<" _ _ body Hl).
  apply (replaceAll_absent ">" _ _ body Hg).
Qed.

Lemma lazy_until_intro (x : ascii) (g rest : str) :
  clean x g ->
  lazy Any (exec [GClose; One (Lit x)]) (g ++ x :: rest) =
  Some ([g; []; [x]], rest).
Proof.
  intros Hg. apply lazy_first.
  - eapply Forall_impl; [|exact Hg]. intros c [_ Hc]. simpl. now rewrite Hc.
  - intros a c b ->. apply Forall_elt in Hg as [Hc _].
    cbn. apply not_eq_sym in Hc. apply Ascii.eqb_neq in Hc. now rewrite Hc.
  - cbn. now rewrite Ascii.eqb_refl.
Qed.

Lemma exec_not_first (c0 c : ascii) (R : list atom) (s : str) :
  c <> c0 -> exec (One (Lit c0) :: R) (c :: s) = None.
Proof.
  intros Hc. cbn. apply not_eq_sym in Hc. apply Ascii.eqb_neq in Hc.
  now rewrite Hc.
Qed.

Lemma exec_lits_intro (p : str) (R : list atom) (s0 : str)
  (segs0 : list str) (rest : str) :
  exec R s0 = Some (segs0, rest) ->
  exec (map (fun c => One (Lit c)) p ++ R) (p ++ s0) =
  Some (map (fun c => [c]) p ++ segs0, rest).
Proof.
  intros H. induction p as [|a p IH]; [exact H|].
  cbn [map app exec times cls_match]. rewrite Ascii.eqb_refl.
  change (times (Lit a) 0 ?k ?s) with (skip_seg (k s)).
  rewrite IH. reflexivity.
Qed.

(** [p(.*?)x] finds the first [p], and takes what stands between it and
    the next [x]. *)
Lemma find_until (c0 : ascii) (p : str) (x : ascii) (pre v rest : str) :
  ~ In c0 pre -> clean x v ->
  index (match_ (pre ++ (c0 :: p) ++ v ++ x :: rest) (re_until (c0 :: p) x))
    1 "1" = Ok v.
Proof.
  intros Hpre Hv. unfold match_, find, re_until. cbn [anchored body].
  rewrite (search_first _ pre _
             (map (fun c => [c]) (c0 :: p) ++ [[]; v; []; [x]], rest)).
  - rewrite groups_lits. cbn. reflexivity.
  - intros a c b ->. apply exec_not_first. intros ->. apply Hpre.
    apply in_or_app. right. now left.
  - apply exec_lits_intro.
    change (exec [GOpen; Lazy Any; GClose; One (Lit x)] (v ++ x :: rest))
      with (skip_seg (lazy Any (exec [GClose; One (Lit x)]) (v ++ x :: rest))).
    now rewrite lazy_until_intro.
Qed.

Lemma exec_group_not_first (c0 c : ascii) (R : list atom) (s : str) :
  c <> c0 -> exec (GClose :: One (Lit c0) :: R) (c :: s) = None.
Proof.
  intros Hc.
  change (exec (GClose :: One (Lit c0) :: R) (c :: s))
    with (skip_seg (exec (One (Lit c0) :: R) (c :: s))).
  now rewrite exec_not_first.
Qed.

Lemma exec_link (t u rest : str) :
  clean "]" t -> clean ")" u ->
  exec re_link (markup t u ++ rest) =
  Some ([lit "["; []; t; []; lit "]"; lit "("; []; u; []; lit ")"], rest).
Proof.
  intros Ht Hu. unfold markup. rewrite <- !app_assoc.
  change re_link
    with (map (fun c => One (Lit c)) (lit "[") ++
          GOpen :: Lazy Any :: GClose ::
          (map (fun c => One (Lit c)) (lit "](") ++
           [GOpen; Lazy Any; GClose; One (Lit ")")])).
  apply (exec_lits_intro (lit "[") _ _
           [[]; t; []; lit "]"; lit "("; []; u; []; lit ")"]).
  match goal with
  | |- exec (GOpen :: Lazy Any :: ?R) ?s = _ =>
      change (skip_seg (lazy Any (exec R) s) =
              Some ([[]; t; []; lit "]"; lit "("; []; u; []; lit ")"], rest))
  end.
  erewrite lazy_first; [reflexivity| | |].
  - eapply Forall_impl; [|exact Ht]. intros c [_ Hc]. simpl. now rewrite Hc.
  - intros a c b ->. apply Forall_elt in Ht as [Hc _].
    cbn [map lit list_ascii_of_string app].
    now apply exec_group_not_first.
  - match goal with
    | |- exec (GClose :: ?R) ?s = _ =>
        change (skip_seg (exec R s) =
                Some ([[]; lit "]"; lit "("; []; u; []; lit ")"], rest))
    end.
    rewrite (exec_lits_intro (lit "](") _ (u ++ lit ")" ++ rest)
               [[]; u; []; lit ")"] rest); [reflexivity|].
    change (skip_seg (lazy Any (exec [GClose; One (Lit ")")])
                        (u ++ ")"%char :: rest)) =
            Some ([[]; u; []; lit ")"], rest)).
    now rewrite lazy_until_intro.
Qed.

Lemma all_from_no_bracket (a s : str) :
  ~ In "["%char a -> all_from re_link (a ++ s) 0 = all_from re_link s 0.
Proof.
  induction a as [|c a IH]; intros Hno; [reflexivity|].
  cbn [app all_from]. unfold re_link at 1.
  cbn [chars map lit list_ascii_of_string app].
  rewrite exec_not_first.
  - apply IH. intros H. apply Hno. now right.
  - intros ->. apply Hno. now left.
Qed.

Lemma all_from_match (r : list atom) (l rest : str) (segs : list str)
  (rest' : str) :
  exec r (l ++ rest) = Some (segs, rest') -> concat segs = l -> l <> [] ->
  all_from r (l ++ rest) 0 = l :: all_from r rest 0.
Proof.
  intros He Hc Hl. destruct l as [|c l]; [contradiction|].
  cbn [app all_from]. change (c :: l ++ rest) with ((c :: l) ++ rest).
  rewrite He, Hc. f_equal.
  replace (length (c :: l) - 1) with (length l) by (simpl; lia).
  apply all_from_skip.
Qed.

Lemma unique_bracket (a r a1 r1 : str) :
  a ++ "["%char :: r = a1 ++ "["%char :: r1 ->
  ~ In "["%char a -> ~ In "["%char r -> a1 = a.
Proof.
  revert a1; induction a as [|c a IH]; intros a1 E Ha Hr.
  - destruct a1 as [|c1 a1]; [reflexivity|]. exfalso.
    injection E as <- ->. apply Hr. apply in_or_app. right. now left.
  - destruct a1 as [|c1 a1].
    + injection E as -> _. exfalso. apply Ha. now left.
    + injection E as <- E. f_equal. apply IH; [exact E| |exact Hr].
      intros H. apply Ha. now right.
Qed.

(** X12: an item line with one link.  When the text before the link, its
    display text, its url and the text after it have no star, ampersand, angle
    bracket or opening bracket, the display text has no closing bracket, no
    opening parenthesis and no line terminator, and the url has no closing
    parenthesis and no line terminator, the item has three runs: the text
    before the link, the link with its url and its display text, and the text
    after it. *)
Theorem item_one_link (a t u b : str) :
  plain a -> plain t -> plain u -> plain b ->
  clean "]" t -> ~ In "("%char t -> clean ")" u ->
  item_sections (lit "* " ++ a ++ markup t u ++ b) =
  Ok [Text (Some a); Link (markup t u) u t; Text (Some b)].
Proof.
  intros Ha Ht Hu Hb Hct Hpt Hcu.
  assert (Hbody : forall x, special x = true -> x <> "["%char ->
                            ~ In x (a ++ markup t u ++ b)).
  { intros x Hx H0. unfold markup.
    pose proof (plain_not x a Hx Ha). pose proof (plain_not x t Hx Ht).
    pose proof (plain_not x u Hx Hu). pose proof (plain_not x b Hx Hb).
    rewrite !in_app_iff. simpl. rewrite ?in_app_iff. simpl.
    intuition (subst; try (now cbv in Hx); congruence). }
  unfold item_sections.
  rewrite normalize_bullet by (apply Hbody; (reflexivity || discriminate)).
  rewrite nullish_match_g.
  assert (Hlinks : all_from re_link (a ++ markup t u ++ b) 0 = [markup t u]).
  { rewrite all_from_no_bracket by (now apply plain_not).
    rewrite (all_from_match re_link (markup t u) b _ b
               (exec_link t u b Hct Hcu)).
    - rewrite <- (app_nil_r b), all_from_no_bracket by (now apply plain_not).
      reflexivity.
    - unfold markup. cbn. now rewrite ?app_nil_r, <- ?app_assoc.
    - discriminate. }
  rewrite Hlinks. cbn [link_loop].
  assert (Eu : index (match_ (markup t u) re_paren) 1 "1" = Ok u).
  { unfold markup.
    replace (lit "[" ++ t ++ lit "](" ++ u ++ lit ")")
      with ((lit "[" ++ t ++ lit "]") ++ lit "(" ++ u ++ ")"%char :: [])
      by (cbn; now rewrite <- !app_assoc).
    apply (find_until "(" [] ")"); [|exact Hcu].
    rewrite !in_app_iff. simpl. intuition discriminate. }
  assert (Et : index (match_ (markup t u) re_bracket) 1 "1" = Ok t).
  { unfold markup.
    replace (lit "[" ++ t ++ lit "](" ++ u ++ lit ")")
      with ([] ++ lit "[" ++ t ++ "]"%char :: (lit "(" ++ u ++ lit ")"))
      by reflexivity.
    apply (find_until "[" [] "]"); [intros []|exact Hct]. }
  rewrite Eu, Et. cbn [bind].
  rewrite split_once.
  - reflexivity.
  - discriminate.
  - intros a1 b1 a2 b2 E1 E2. unfold markup in E1, E2.
    cbn [lit list_ascii_of_string app] in E1, E2.
    rewrite <- !app_assoc in E1, E2. cbn [app] in E1, E2.
    assert (Hr : ~ In "["%char
                   (t ++ "]"%char :: "("%char :: (u ++ [")"%char]) ++ b)).
    { rewrite !in_app_iff. simpl. rewrite !in_app_iff. simpl.
      pose proof (plain_not "[" t eq_refl Ht).
      pose proof (plain_not "[" u eq_refl Hu).
      pose proof (plain_not "[" b eq_refl Hb). intuition discriminate. }
    assert (Ha0 : ~ In "["%char a) by (now apply plain_not).
    rewrite (unique_bracket a _ a1 _ E1 Ha0 Hr).
    rewrite (unique_bracket a _ a2 _ E2 Ha0 Hr). reflexivity.
Qed.

Lemma item_one_link_witness :
  item_sections (lit "* Add foo support ([#12](http://x/12))") =
  Ok [ Text (Some (lit "Add foo support ("));
       Link (lit "[#12](http://x/12)") (lit "http://x/12") (lit "#12");
       Text (Some (lit ")")) ].
Proof.
  apply (item_one_link (lit "Add foo support (") (lit "#12")
           (lit "http://x/12") (lit ")"));
    try (repeat constructor; discriminate).
  simpl. intuition discriminate.
Defined.

(* ================================================================= *)
(** ** The message and the action *)

Lemma run_blocks (markdown serviceName : str) (blocks : list Block) :
  run markdown serviceName = Ok blocks ->
  exists v vs,
    parseMarkdown markdown = Ok (v :: vs) /\
    blocks = header_ (lit "Release Note - " ++ serviceName)
             :: section_ (summary (header v))
             :: map section_to_block (sections v).
Proof.
  unfold run. destruct (parseMarkdown markdown) as [[|v vs]|];
    cbn [bind nth_error versionToBlocks]; try discriminate.
  intros [= <-]. now exists v, vs.
Qed.

(** X13: the message is that of the release on top.  When [run] makes the
    blocks of a changelog [a], and [b] is a changelog that begins with a header
    line and that [parseMarkdown] takes apart, [run] makes the same blocks of
    [a], a line feed and [b]: the releases further down the file add nothing
    to the message and change nothing in it. *)
Theorem run_latest_release (a b serviceName : str) (blocks : list Block) :
  run a serviceName = Ok blocks ->
  (exists vb, parseMarkdown b = Ok vb) ->
  (exists h rest, lines_of b = h :: rest /\ is_header_line h = true) ->
  run (a ++ [LF] ++ b) serviceName = Ok blocks.
Proof.
  intros Ha [vb Hb] (h & rest & Hl & Hh).
  destruct (run_blocks a serviceName blocks Ha) as (v & vs & Hp & ->).
  assert (E : parseMarkdown (a ++ [LF] ++ b) = Ok ((v :: vs) ++ vb)).
  { unfold parseMarkdown in *. fold (lines_of (a ++ [LF] ++ b)).
    rewrite lines_of_app.
    apply parse_lines_app; [exact Hp|exact Hb|].
    right. now exists h, rest. }
  unfold run. rewrite E. reflexivity.
Qed.

Lemma run_latest_release_witness :
  exists blocks,
    run changelog_repeated (lit "My Service") = Ok blocks /\
    run (changelog_repeated ++ [LF] ++ changelog_example) (lit "My Service") =
    Ok blocks.
Proof.
  destruct (run changelog_repeated (lit "My Service")) as [blocks|] eqn:Ea;
    [|vm_compute in Ea; discriminate].
  exists blocks. split; [reflexivity|].
  apply (run_latest_release _ _ _ blocks Ea).
  - destruct (parseMarkdown changelog_example) as [vb|] eqn:Eb;
      [now exists vb|vm_compute in Eb; discriminate].
  - eexists _, _. split; reflexivity.
Defined.

(** X14: what the action does to the outside.  It posts at most once and
    calls [core.setFailed] at most once.  It posts nothing exactly when the
    file cannot be read or the making of the blocks throws, and then it fails.
    A request goes to the webhook url of the environment with blocks that
    begin with the header block of the service name and the summary block of
    a version.  The action ends without a failure exactly when the file was
    read, the blocks were made, and the one request was answered with the
    status code 200. *)
Theorem run_in_effects (toUpperCase : str -> str) (w : world) :
  let serviceName :=
    getServiceName toUpperCase (input_service_name w) (repo w) in
  let outcome := run_in toUpperCase w in
  length (requests outcome) <= 1 /\
  length (failures outcome) <= 1 /\
  (requests outcome = [] <->
   (exists message,
      readFileSync w (input_change_log_path w) = inr message /\
      failures outcome = [Message message]) \/
   (exists markdown e,
      readFileSync w (input_change_log_path w) = inl markdown /\
      run markdown serviceName = Err e /\
      failures outcome = [Thrown e])) /\
  (forall request, In request (requests outcome) ->
     exists v rest,
       request =
       (SLACK_WEBHOOK_URL w,
        header_ (lit "Release Note - " ++ serviceName)
        :: section_ (summary (header v)) :: rest)) /\
  (failures outcome = [] <->
   exists markdown blocks,
     readFileSync w (input_change_log_path w) = inl markdown /\
     run markdown serviceName = Ok blocks /\
     requests outcome = [(SLACK_WEBHOOK_URL w, blocks)] /\
     post w (SLACK_WEBHOOK_URL w) blocks = Response 200).
Proof.
  intros serviceName outcome. subst outcome. unfold run_in.
  fold serviceName.
  destruct (readFileSync w (input_change_log_path w)) as [markdown|message].
  - destruct (run markdown serviceName) as [blocks|e] eqn:Er.
    + unfold sendMessage. cbn [requests failures length].
      repeat split.
      * lia.
      * destruct (post w (SLACK_WEBHOOK_URL w) blocks) as [code|m];
          [destruct (code =? 200)|]; simpl; lia.
      * discriminate.
      * intros [(message & H & _)|(m & e & H & He & _)]; [discriminate|].
        injection H as <-. congruence.
      * intros request [<-|[]].
        destruct (run_blocks _ _ _ Er) as (v & vs & _ & ->).
        now eexists _, _.
      * intros H. exists markdown, blocks.
        split; [reflexivity|]. split; [exact Er|]. split; [reflexivity|].
        destruct (post w (SLACK_WEBHOOK_URL w) blocks) as [code|m];
          [|discriminate].
        destruct (code =? 200) eqn:E; [|discriminate].
        apply Nat.eqb_eq in E. now subst code.
      * intros (m & bs & H & Hr & _ & Hp). injection H as <-.
        assert (bs = blocks) by congruence. subst bs. now rewrite Hp.
    + cbn [requests failures length]. repeat split; try lia.
      * intros _. right. now exists markdown, e.
      * intros request [].
      * discriminate.
      * intros (m & bs & H & Hr & _). injection H as <-. congruence.
  - cbn [requests failures length]. repeat split; try lia.
    + intros _. left. now exists message.
    + intros request [].
    + discriminate.
    + intros (m & bs & H & _). discriminate.
Qed.
